(** * Tracer: the colour class, the light-transport evaluator and the
      scanline scheduler

    A shallow embedding of [utilities/include/color.hpp] and
    [Tracer/src/main.cxx].

    Numbers.  [Float] is the alias of [float.hpp] (a C++ [float] or
    [double]); it is embedded as a real number, so every statement below is
    about arithmetic without rounding, NaN or overflow.  A C++ [int] is
    embedded as an integer of [Z]; the one place where the range of [int]
    matters, the conversion [static_cast<int>], returns [None] outside of
    it. *)

From Stdlib Require Import Reals Lra Lia ZArith List Bool.
From Equations Require Import Equations.
Import ListNotations.

Open Scope R_scope.

Abbreviation Float := R (only parsing).

(** ** Conversion of a floating-point value to [int] *)

Definition INT_MIN : Z := (- 2147483648)%Z.
Definition INT_MAX : Z := 2147483647%Z.

(** Truncation toward zero, the rounding of a floating-to-integer
    conversion. *)
Definition truncate (x : Float) : Z :=
  if Rle_dec 0 x then Int_part x else (- Int_part (- x))%Z.

(** [static_cast<int>(x)]: the truncated value when [int] can hold it. *)
Definition static_cast_int (x : Float) : option Z :=
  let z := truncate x in
  if ((INT_MIN <=? z) && (z <=? INT_MAX))%Z then Some z else None.

(** ** color.hpp *)

Module Color.

(** [Float m_color[3]]. *)
Record color : Type := mkColor { raw_r : Float; raw_g : Float; raw_b : Float }.

(** The default arguments of the constructor: [color()]. *)
Definition black : color := mkColor 0 0 0.

Definition r (c : color) (max : Float) : option Z :=
  static_cast_int (255.0 * raw_r c).

Definition g (c : color) (max : Float) : option Z :=
  static_cast_int (255.0 * raw_g c).

Definition b (c : color) (max : Float) : option Z :=
  static_cast_int (255.0 * raw_b c).

(** [operator+=]: the updated left operand. *)
Definition add_assign (c1 c2 : color) : color :=
  mkColor (raw_r c1 + raw_r c2) (raw_g c1 + raw_g c2) (raw_b c1 + raw_b c2).

(** Modelled from the spec: the friend operators [operator+],
    [operator*(color, color)] and [operator*(Float, color)] are declared in
    color.hpp and defined in a file that is not among the sources; the
    specification describes them as the standard component-wise
    operations. *)
Definition add (c1 c2 : color) : color :=
  mkColor (raw_r c1 + raw_r c2) (raw_g c1 + raw_g c2) (raw_b c1 + raw_b c2).

Definition mul (u v : color) : color :=
  mkColor (raw_r u * raw_r v) (raw_g u * raw_g v) (raw_b u * raw_b v).

Definition scale (t : Float) (c : color) : color :=
  mkColor (t * raw_r c) (t * raw_g c) (t * raw_b c).

(** The private member [clamp]. *)
Definition clamp (x min max : Float) : Float :=
  if Rlt_dec x min then min
  else if Rgt_dec x max then max
  else x.

(** Modelled from the spec: [combine] is declared in color.hpp and defined
    in a file that is not among the sources.  Per the specification it
    divides by the number of samples, takes the square root and clamps to
    [0,1]; it is a non-const member, taken to update the colour in place
    and to return it. *)
Definition combine (c : color) (samplesPerPixel : Z) : color :=
  let n := IZR samplesPerPixel in
  mkColor (clamp (sqrt (raw_r c / n)) 0 1)
          (clamp (sqrt (raw_g c / n)) 0 1)
          (clamp (sqrt (raw_b c / n)) 0 1).

(** All three components are non-negative. *)
Definition nonneg (c : color) : Prop :=
  0 <= raw_r c /\ 0 <= raw_g c /\ 0 <= raw_b c.

End Color.

Import Color.

(** ** Vectors and rays

    Modelled from the spec: vec3.hpp and ray.hpp are not among the sources.
    The specification treats them as a numeric library with the standard
    operations; [unitVector] is its normalisation, the vector divided by
    its length. *)

Record vec3 : Type := mkVec { x : Float; y : Float; z : Float }.

Definition point3 : Type := vec3.

Definition length (v : vec3) : Float :=
  sqrt (x v * x v + y v * y v + z v * z v).

Definition unitVector (v : vec3) : vec3 :=
  mkVec (x v / length v) (y v / length v) (z v / length v).

Record ray : Type := mkRay { origin : point3; direction : vec3 }.

(** ** Hit records and the scene

    [HitRecord] (shared/hitRecord.hpp, not among the sources) is read by
    [rayColor] through its [material] member only; the other members are
    those the specification lists. *)

Record HitRecord (Material : Type) : Type := mkHitRecord {
  p : point3;
  normal : vec3;
  t : Float;
  material : Material
}.

Arguments mkHitRecord {Material} _ _ _ _.
Arguments p {Material} _.
Arguments normal {Material} _.
Arguments t {Material} _.
Arguments material {Material} _.

(** The interface [HittableObject]: one virtual member [hit], whose [bool]
    result and output parameter [rec] are an [option]. *)
Record HittableObject (Material : Type) : Type := mkHittable {
  object_hit : ray -> Float -> Float -> option (HitRecord Material)
}.

Arguments mkHittable {Material} _.
Arguments object_hit {Material} _ _ _ _.

Definition HittableList (Material : Type) : Type :=
  list (HittableObject Material).

(** Modelled from the spec: [HittableList::hit] (hittableList.hpp) is not
    among the sources.  Per the specification every primitive is queried in
    turn with the upper bound narrowed to the closest hit found so far. *)
Fixpoint hit_from {Material : Type} (objects : HittableList Material)
    (r : ray) (tMin closestSoFar : Float)
    (rec : option (HitRecord Material)) : option (HitRecord Material) :=
  match objects with
  | [] => rec
  | object :: rest =>
      match object_hit object r tMin closestSoFar with
      | Some temp => hit_from rest r tMin (t temp) (Some temp)
      | None => hit_from rest r tMin closestSoFar rec
      end
  end.

Definition hit {Material : Type} (world : HittableList Material)
    (r : ray) (tMin tMax : Float) : option (HitRecord Material) :=
  hit_from world r tMin tMax None.

(** ** What main.cxx takes from headers that are not among the sources

    The state of the pseudo-random generator behind [randomDouble] and
    behind the materials, the constant [infinity] (utility.hpp), the
    virtual member [Material::scatter], whose [bool] result and output
    parameters [attenuation] and [scattered] are an [option], and
    [Camera::getRay]. *)
Record Externals : Type := mkExternals {
  Generator : Type;
  infinity : Float;
  Material : Type;
  scatter : Material -> ray -> HitRecord Material -> Generator ->
            option (color * ray) * Generator;
  Camera : Type;
  getRay : Camera -> Float -> Float -> ray;
  randomDouble : Generator -> Float * Generator
}.

(** The materials a scene can report: those of the records its objects
    return. *)
Definition scene_material {Material : Type} (world : HittableList Material)
    (m : Material) : Prop :=
  exists object r tMin tMax record,
    In object world /\
    object_hit object r tMin tMax = Some record /\
    material record = m.

(** The attenuation of every successful scatter of a material of the scene
    is non-negative. *)
Definition attenuations_nonneg (E : Externals)
    (world : HittableList (Material E)) : Prop :=
  forall m r record gen attenuation scattered gen1,
    scene_material world m ->
    scatter E m r record gen = (Some (attenuation, scattered), gen1) ->
    nonneg attenuation.

(** ** main.cxx: rayColor and render *)

Section Tracer.

Context (E : Externals).

(** The background of [rayColor]: the blend of white and sky blue. *)
Definition background (r : ray) : color :=
  let unitDirection := unitVector (direction r) in
  let t := 0.5 * (y unitDirection + 1.0) in
  add (scale (1.0 - t) (mkColor 1.0 1.0 1.0)) (scale t (mkColor 0.5 0.7 1.0)).

(** [attenuation * rayColor(scattered, world, depth - 1)], the generator
    being handed on. *)
Definition attenuate (attenuation : color)
    (res : color * Generator E) : color * Generator E :=
  (mul attenuation (fst res), snd res).

Equations? rayColor (r : ray) (world : HittableList (Material E))
    (depth : Z) (gen : Generator E) : color * Generator E
    by wf (Z.to_nat depth) lt :=
  rayColor r world depth gen with Z_le_gt_dec depth 0 := {
    | left _ => (mkColor 0 0 0, gen)
    | right _ with hit world r 0.001 (infinity E) := {
        | Some record with scatter E (material record) r record gen := {
            | (Some (attenuation, scattered), gen1) =>
                attenuate attenuation
                  (rayColor scattered world (depth - 1) gen1)
            | (None, gen1) => (mkColor 0 0 0, gen1) }
        | None => (background r, gen) } }.
Proof. lia. Qed.

(** What [render] reads and writes besides its own parameters: the
    generator, the standard error stream (the numbers it prints), the
    buffers of the two writers, and the arguments of every call of
    [camera.getRay], kept to count the samples. *)
Record RenderState : Type := mkRenderState {
  generator : Generator E;
  cerr : list Z;
  ppm : list color;
  png : list color;
  jpg : list color;
  traced : list (Float * Float)
}.

(** A small state monad over [RenderState]. *)
Definition M (A : Type) : Type := RenderState -> A * RenderState.

Definition ret {A : Type} (a : A) : M A := fun st => (a, st).

Definition bind {A B : Type} (m : M A) (k : A -> M B) : M B :=
  fun st => let (a, st1) := m st in k a st1.

Notation "x <- m ;; k" := (bind m (fun x => k))
  (at level 61, m at next level, right associativity).
Notation "m ;;; k" := (bind m (fun _ => k))
  (at level 61, right associativity).

Definition call_randomDouble : M Float :=
  fun st =>
    let (v, gen1) := randomDouble E (generator st) in
    (v, mkRenderState gen1 (cerr st) (ppm st) (png st) (jpg st) (traced st)).

Definition call_getRay (camera : Camera E) (u v : Float) : M ray :=
  fun st =>
    (getRay E camera u v,
     mkRenderState (generator st) (cerr st) (ppm st) (png st) (jpg st)
                   (traced st ++ [(u, v)])).

Definition call_rayColor (r : ray) (world : HittableList (Material E))
    (depth : Z) : M color :=
  fun st =>
    let (c, gen1) := rayColor r world depth (generator st) in
    (c, mkRenderState gen1 (cerr st) (ppm st) (png st) (jpg st) (traced st)).

(** [std::cerr << "\rScanlines remaining: " << scanLinesLeft]. *)
Definition print_remaining (scanLinesLeft : Z) : M unit :=
  fun st =>
    (tt, mkRenderState (generator st) (cerr st ++ [scanLinesLeft]) (ppm st)
                       (png st) (jpg st) (traced st)).

(** [pw.write], [iw.writeToPNGBuffer] and [iw.writeToJPGBuffer]. *)
Definition pw_write (c : color) : M unit :=
  fun st =>
    (tt, mkRenderState (generator st) (cerr st) (ppm st ++ [c]) (png st)
                       (jpg st) (traced st)).

Definition iw_writeToPNGBuffer (c : color) : M unit :=
  fun st =>
    (tt, mkRenderState (generator st) (cerr st) (ppm st) (png st ++ [c])
                       (jpg st) (traced st)).

Definition iw_writeToJPGBuffer (c : color) : M unit :=
  fun st =>
    (tt, mkRenderState (generator st) (cerr st) (ppm st) (png st)
                       (jpg st ++ [c]) (traced st)).

Section Render.

(** The parameters of [render] that its loops only read.  The
    identifier [j] of line 80 is declared neither in [render] nor
    anywhere else in main.cxx: it is a parameter here, and no statement
    of [render] assigns it. *)
Variables (imageWidth imageHeight : Z) (world : HittableList (Material E))
          (maxRayDepth : Z) (camera : Camera E) (samplesPerPixel : Z)
          (j : Z).

(** One sample of pixel [i], lines 79 to 84. *)
Definition sample (i : Z) (pixelColor : color) : M color :=
  r1 <- call_randomDouble ;;
  let u := (IZR i + r1) / IZR (imageWidth - 1) in
  r2 <- call_randomDouble ;;
  let v := (IZR j + r2) / IZR (imageHeight - 1) in
  r <- call_getRay camera u v ;;
  c <- call_rayColor r world maxRayDepth ;;
  ret (add_assign pixelColor c).

(** [for (int s = 0; s < samplesPerPixel; ++s)], with [n] iterations
    left; the body does not read [s]. *)
Fixpoint sample_loop (n : nat) (i : Z) (pixelColor : color) : M color :=
  match n with
  | O => ret pixelColor
  | S n' => c <- sample i pixelColor ;; sample_loop n' i c
  end.

(** Lines 87 to 91: the finished pixel goes to the three buffers. *)
Definition emit (pixelColor : color) : M unit :=
  pw_write pixelColor ;;;
  iw_writeToPNGBuffer pixelColor ;;;
  iw_writeToJPGBuffer pixelColor.

(** The body of the loop over [i], lines 77 to 91. *)
Definition pixel (i : Z) : M unit :=
  pixelColor <- sample_loop (Z.to_nat samplesPerPixel) i black ;;
  emit (combine pixelColor samplesPerPixel).

(** [for (int i = 0; i < imageWidth; ++i)], at index [i] with [n]
    iterations left. *)
Fixpoint pixel_loop (n : nat) (i : Z) : M unit :=
  match n with
  | O => ret tt
  | S n' => pixel i ;;; pixel_loop n' (i + 1)
  end.

(** One turn of the [while] loop after its test, lines 73 to 92, but for
    the decrement of the counter, which is in [render]. *)
Definition scanline (scanLinesLeft : Z) : M unit :=
  print_remaining scanLinesLeft ;;;
  pixel_loop (Z.to_nat imageWidth) 0.

(** [render]: the counter is a parameter passed by value, hence a local
    variable of the call. *)
Equations? render (scanLinesLeft : Z) (st : RenderState) : RenderState
    by wf (Z.to_nat scanLinesLeft) lt :=
  render scanLinesLeft st with Z_gt_le_dec scanLinesLeft 0 := {
    | left _ => render (scanLinesLeft - 1) (snd (scanline scanLinesLeft st))
    | right _ => st }.
Proof. lia. Qed.

End Render.

End Tracer.

Arguments generator {E} _.
Arguments cerr {E} _.
Arguments ppm {E} _.
Arguments png {E} _.
Arguments jpg {E} _.
Arguments traced {E} _.

(** What a computation leaves alone: the streams it does not write. *)
Definition same_writers {E : Externals} (st st1 : RenderState E) : Prop :=
  ppm st1 = ppm st /\ png st1 = png st /\ jpg st1 = jpg st.

(** ** main.cxx: the image and the pool of threads *)

Definition aspectRatio : Float := 16.0 / 9.0.
Definition imageWidth : Z := 1920%Z.
(** [static_cast<int>(imageWidth / aspectRatio)], well within [int]. *)
Definition imageHeight : Z := truncate (IZR imageWidth / aspectRatio).
Definition samplesPerPixel : Z := 100%Z.
Definition maxRayDepth : Z := 50%Z.

(** The threads of [main], as far as the counter of scan lines goes.
    [std::thread] copies its arguments and [render] takes the counter by
    value, so every thread decrements a counter of its own: [counters] holds
    the counter of each thread, by its index in [threadPool].  [claimed]
    lists, in the order in which they happen, the decrements
    [scanLinesLeft--] of all threads: the thread and the value it read. *)
Record Pool : Type := mkPool {
  counters : list Z;
  claimed : list (nat * Z)
}.

(** Lines 132 to 139: [numThreads] threads, each started on a copy of
    [scanLinesLeft]. *)
Definition spawn (numThreads scanLinesLeft : Z) : Pool :=
  mkPool (repeat scanLinesLeft (Z.to_nat numThreads)) [].

Fixpoint set_counter (k : nat) (c : Z) (l : list Z) : list Z :=
  match l, k with
  | [], _ => []
  | _ :: rest, O => c :: rest
  | c0 :: rest, S k' => c0 :: set_counter k' c rest
  end.

(** One turn of the [while] loop of [render] in thread [k], lines 72 to 74:
    the test [scanLinesLeft > 0] and the decrement, on the counter of that
    thread.  The threads interleave freely. *)
Inductive pool_step : Pool -> Pool -> Prop :=
| step_claim (k : nat) (c : Z) (pool : Pool) :
    nth_error (counters pool) k = Some c ->
    (c > 0)%Z ->
    pool_step pool
      (mkPool (set_counter k (c - 1) (counters pool))
              (claimed pool ++ [(k, c)])).

Inductive pool_run : Pool -> Pool -> Prop :=
| run_refl (pool : Pool) : pool_run pool pool
| run_step (pool1 pool2 pool3 : Pool) :
    pool_run pool1 pool2 -> pool_step pool2 pool3 -> pool_run pool1 pool3.

(** Every thread has left its loop: [t.join()] returns for all of them. *)
Definition joined (pool : Pool) : Prop :=
  Forall (fun c => (c <= 0)%Z) (counters pool).

(** The values thread [k] read at its decrements, in order. *)
Definition claims_of (k : nat) (log : list (nat * Z)) : list Z :=
  map snd (filter (fun e => Nat.eqb (fst e) k) log).

(** How many times the value [row] was read at a decrement, by any thread. *)
Definition times_claimed (row : Z) (log : list (nat * Z)) : nat :=
  List.length (filter (fun e => Z.eqb (snd e) row) log).

(** [n], [n - 1], ..., 1. *)
Fixpoint countdown (n : nat) : list Z :=
  match n with
  | O => []
  | S n' => Z.of_nat n :: countdown n'
  end.

(** What every interleaving preserves. *)
Record pool_invariant (numThreads scanLinesLeft : Z) (pool : Pool) : Prop :=
  mkPoolInvariant {
  inv_threads : List.length (counters pool) = Z.to_nat numThreads;
  inv_claims : forall k c,
    nth_error (counters pool) k = Some c ->
    claims_of k (claimed pool) ++ countdown (Z.to_nat c) =
    countdown (Z.to_nat scanLinesLeft);
  inv_times : forall row,
    (1 <= row <= scanLinesLeft)%Z ->
    times_claimed row (claimed pool) =
    List.length (filter (fun c => (c <? row)%Z) (counters pool))
}.

(** [main] from line 129 to the end of the joins, for the value that
    [std::thread::hardware_concurrency()] returns. *)
Definition main_pool (hardware_concurrency : N) : Pool :=
  let numThreads := Z.of_N hardware_concurrency in
  let scanLinesLeft := (imageHeight - 1)%Z in
  spawn numThreads scanLinesLeft.

(** ** color.hpp: randomFloat(min, max) *)

(** The standard library under [randomFloat]: the state of the engine
    ([std::mt19937] or [std::mt19937_64]), a draw from
    [std::uniform_real_distribution<Float>(a, b)], and
    [std::nextafter(x, +infinity)]. *)
Record StdRandom : Type := mkStdRandom {
  Engine : Type;
  uniform_real : Float -> Float -> Engine -> Float * Engine;
  nextafter_up : Float -> Float
}.

(** The distribution over [a, nextafter(m)) draws from the closed range
    [a, m], which is what the comment of [randomFloat] relies on. *)
Definition closed_range (L : StdRandom) : Prop :=
  forall (a m : Float) (e : Engine L),
    a <= m ->
    a <= fst (uniform_real L a (nextafter_up L m) e) <= m.

(** The two function-local statics of [randomFloat(min, max)]: the
    distribution, [None] until the first call constructs it, and the
    engine. *)
Record Statics (L : StdRandom) : Type := mkStatics {
  distribution : option (Float * Float);
  engine : Engine L
}.

Arguments mkStatics {L} _ _.
Arguments distribution {L} _.
Arguments engine {L} _.

Definition randomFloat (L : StdRandom) (min max : Float)
    (s : Statics L) : Float * Statics L :=
  let d := match distribution s with
           | Some d => d
           | None => (min, nextafter_up L max)
           end in
  let (v, e) := uniform_real L (fst d) (snd d) (engine s) in
  (v, mkStatics (Some d) e).

(** ** color.hpp: randomFloat() and the two random colours *)

(** [randomFloat()]: its own two function-local statics, the distribution
    being constructed over -1 and [std::nextafter(1, +infinity)]. *)
Definition randomFloat0 (L : StdRandom) (s : Statics L) : Float * Statics L :=
  let d := match distribution s with
           | Some d => d
           | None => (-1, nextafter_up L 1)
           end in
  let (v, e) := uniform_real L (fst d) (snd d) (engine s) in
  (v, mkStatics (Some d) e).

(** [random()]: the three elements of the braced list are evaluated from
    left to right, on the statics of [randomFloat()]. *)
Definition random0 (L : StdRandom) (s : Statics L) : color * Statics L :=
  let (v0, s1) := randomFloat0 L s in
  let (v1, s2) := randomFloat0 L s1 in
  let (v2, s3) := randomFloat0 L s2 in
  (mkColor v0 v1 v2, s3).


(** The distribution has been constructed, over [a] and the successor of
    [m]. *)
Definition settled (L : StdRandom) (a m : Float) (s : Statics L) : Prop :=
  distribution s = Some (a, nextafter_up L m).

(** The states the statics of [randomFloat()] can be in. *)
Definition unit_statics (L : StdRandom) (s : Statics L) : Prop :=
  distribution s = None \/ settled L (-1) 1 s.

(** ** Ranges of colours, work left in the pool *)

(** All three components lie between [lo] and [hi]. *)
Definition within (lo hi : Float) (c : color) : Prop :=
  lo <= raw_r c <= hi /\ lo <= raw_g c <= hi /\ lo <= raw_b c <= hi.

(** The attenuation of every successful scatter of a material of the scene
    has its components between 0 and 1. *)
Definition attenuations_within_unit (E : Externals)
    (world : HittableList (Material E)) : Prop :=
  forall m r record gen attenuation scattered gen1,
    scene_material world m ->
    scatter E m r record gen = (Some (attenuation, scattered), gen1) ->
    within 0 1 attenuation.

(** The turns of the [while] loop that the threads still have to make. *)
Fixpoint turns_left (l : list Z) : nat :=
  match l with
  | [] => O
  | c :: rest => (Z.to_nat c + turns_left rest)%nat
  end.

(** ** Instances used to run the definitions *)

(** Two materials: a mirror that sends every ray back along itself with
    attenuation (0.8, 0.8, 0.8), and soot, which absorbs. *)
Inductive toyMaterial : Type := Mirror | Soot.

(** A generator that counts its draws and returns one half, the two
    materials, and a camera looking along -z. *)
Definition toyExternals : Externals :=
  mkExternals nat 1000000 toyMaterial
    (fun m r _ gen =>
       match m with
       | Mirror => (Some (mkColor 0.8 0.8 0.8, r), S gen)
       | Soot => (None, S gen)
       end)
    unit
    (fun _ u v => mkRay (mkVec 0 0 0) (mkVec u v (-1)))
    (fun gen => (0.5, S gen)).

(** The same, with a mirror that draws no random number. *)
Definition stillExternals : Externals :=
  mkExternals nat 1000000 toyMaterial
    (fun m r _ gen =>
       match m with
       | Mirror => (Some (mkColor 0.8 0.8 0.8, r), gen)
       | Soot => (None, gen)
       end)
    unit
    (fun _ u v => mkRay (mkVec 0 0 0) (mkVec u v (-1)))
    (fun gen => (0.5, S gen)).

(** An object that every ray hits at distance 1. *)
Definition wall (m : toyMaterial) : HittableObject toyMaterial :=
  mkHittable (fun r _ _ => Some (mkHitRecord (mkVec 0 0 0) (mkVec 0 1 0) 1 m)).

Definition forward : ray := mkRay (mkVec 0 0 0) (mkVec 0 0 (-1)).

Definition toyState : RenderState toyExternals :=
  mkRenderState toyExternals O [] [] [] [] [].

(** An engine that counts its draws; every draw returns the lower bound. *)
Definition toyRandom : StdRandom :=
  mkStdRandom nat (fun a _ e => (a, S e)) (fun x => x + 1).

(** Before the first call of [randomFloat]. *)
Definition toyStatics : Statics toyRandom :=
  @mkStatics toyRandom None O.
(** ** Facts about truncation *)

Lemma truncate_nonneg (x : Float) (z : Z) :
  IZR z <= x < IZR z + 1 -> 0 <= x -> truncate x = z.
Proof.
  intros Hz Hx. unfold truncate.
  destruct (Rle_dec 0 x) as [_ | Hn]; [ | contradiction ].
  symmetry. apply Int_part_spec. lra.
Qed.

Lemma truncate_neg (x : Float) (z : Z) :
  IZR z - 1 < x <= IZR z -> x < 0 -> truncate x = z.
Proof.
  intros Hz Hx. unfold truncate.
  destruct (Rle_dec 0 x) as [Hp | _]; [ lra | ].
  assert (E : (- z)%Z = Int_part (- x)).
  { apply Int_part_spec. rewrite opp_IZR. lra. }
  rewrite <- E. lia.
Qed.

(** Truncation never moves a value away from zero, and by less than one. *)
Lemma truncate_bounds (x : Float) :
  (0 <= x -> IZR (truncate x) <= x < IZR (truncate x) + 1) /\
  (x < 0 -> IZR (truncate x) - 1 < x <= IZR (truncate x)).
Proof.
  unfold truncate. destruct (Rle_dec 0 x) as [Hp | Hn]; split; intros H; try lra.
  - destruct (base_Int_part x). lra.
  - destruct (base_Int_part (- x)). rewrite opp_IZR. lra.
Qed.

Lemma static_cast_int_Some (x : Float) (z : Z) :
  static_cast_int x = Some z -> truncate x = z.
Proof.
  unfold static_cast_int.
  destruct ((INT_MIN <=? truncate x) && (truncate x <=? INT_MAX))%Z;
    congruence.
Qed.

(** The channel accessors on a colour that sits just above 1 and just below
    0: the products 255.498... and -0.498... truncate to 255 and to 0. *)
Example r_just_above_one :
  r (mkColor (513 / 512) 0 0) 255 = Some 255%Z.
Proof.
  unfold r, static_cast_int; simpl raw_r.
  rewrite (truncate_nonneg _ 255%Z) by lra. reflexivity.
Qed.

Example r_just_below_zero :
  r (mkColor (- 1 / 512) 0 0) 255 = Some 0%Z.
Proof.
  unfold r, static_cast_int; simpl raw_r.
  rewrite (truncate_neg _ 0%Z) by lra. reflexivity.
Qed.

(** ** rayColor: its three cases *)

Lemma rayColor_spent (E : Externals) (r : ray)
    (world : HittableList (Material E)) (depth : Z) (gen : Generator E) :
  (depth <= 0)%Z -> rayColor E r world depth gen = (mkColor 0 0 0, gen).
Proof.
  intros Hd. simp rayColor.
  destruct (Z_le_gt_dec depth 0) as [Hle | Hgt]; [ reflexivity | lia ].
Qed.

Lemma rayColor_miss (E : Externals) (r : ray)
    (world : HittableList (Material E)) (depth : Z) (gen : Generator E) :
  (0 < depth)%Z ->
  hit world r 0.001 (infinity E) = None ->
  rayColor E r world depth gen = (background r, gen).
Proof.
  intros Hd Hmiss. simp rayColor.
  destruct (Z_le_gt_dec depth 0) as [Hle | Hgt]; [ lia | ].
  cbn. rewrite Hmiss. reflexivity.
Qed.

Lemma rayColor_hit (E : Externals) (r : ray)
    (world : HittableList (Material E)) (depth : Z) (gen : Generator E)
    (record : HitRecord (Material E)) :
  (0 < depth)%Z ->
  hit world r 0.001 (infinity E) = Some record ->
  rayColor E r world depth gen =
    match scatter E (material record) r record gen with
    | (Some (attenuation, scattered), gen1) =>
        attenuate E attenuation (rayColor E scattered world (depth - 1) gen1)
    | (None, gen1) => (mkColor 0 0 0, gen1)
    end.
Proof.
  intros Hd Hhit. rewrite rayColor_equation_1.
  destruct (Z_le_gt_dec depth 0) as [Hle | Hgt]; [ lia | ].
  cbn. rewrite Hhit. cbn.
  destruct (scatter E (material record) r record gen) as [[[att sc] | ] gen1];
    reflexivity.
Qed.

(** ** The background lies between sky blue and white *)

Lemma unitVector_y_range (v : vec3) : -1 <= y (unitVector v) <= 1.
Proof.
  destruct v as [a b c]. unfold unitVector, length. cbn [x y z].
  remember (a * a + b * b + c * c) as s eqn:Es.
  assert (Hs : 0 <= s) by nra.
  destruct (Req_dec s 0) as [Hz | Hnz].
  - assert (Hb : b = 0) by nra.
    rewrite Hb. unfold Rdiv. rewrite Rmult_0_l. lra.
  - assert (Hpos : 0 < sqrt s) by (apply sqrt_lt_R0; lra).
    assert (Hsq : sqrt s * sqrt s = s) by (apply sqrt_sqrt; exact Hs).
    assert (Hb : - sqrt s <= b <= sqrt s).
    { split; apply Rnot_lt_le; intros Hlt.
      - assert (0 < (- b - sqrt s) * (- b + sqrt s))
          by (apply Rmult_lt_0_compat; lra).
        nra.
      - assert (0 < (b - sqrt s) * (b + sqrt s))
          by (apply Rmult_lt_0_compat; lra).
        nra. }
    split.
    + apply Rmult_le_reg_r with (r := sqrt s); [ exact Hpos | ].
      unfold Rdiv. rewrite Rmult_assoc, Rinv_l by lra. lra.
    + apply Rmult_le_reg_r with (r := sqrt s); [ exact Hpos | ].
      unfold Rdiv. rewrite Rmult_assoc, Rinv_l by lra. lra.
Qed.

Lemma background_components (r : ray) :
  let t := 0.5 * (y (unitVector (direction r)) + 1.0) in
  background r =
    mkColor ((1.0 - t) * 1.0 + t * 0.5)
            ((1.0 - t) * 1.0 + t * 0.7)
            ((1.0 - t) * 1.0 + t * 1.0).
Proof. reflexivity. Qed.

Lemma background_nonneg (r : ray) : nonneg (background r).
Proof.
  rewrite background_components. cbv zeta.
  pose proof (unitVector_y_range (direction r)) as Hy.
  unfold nonneg; cbn [raw_r raw_g raw_b]. repeat split; nra.
Qed.

Lemma unitVector_up (k : Float) :
  0 < k -> y (unitVector (mkVec 0 k 0)) = 1.
Proof.
  intros Hk. unfold unitVector, length. cbn [x y z].
  replace (0 * 0 + k * k + 0 * 0) with (k * k) by ring.
  rewrite sqrt_square by lra. field. lra.
Qed.

Lemma unitVector_level (a c : Float) :
  y (unitVector (mkVec a 0 c)) = 0.
Proof.
  unfold unitVector. cbn [x y z]. unfold Rdiv. apply Rmult_0_l.
Qed.

(** ** Colours with non-negative components *)

Lemma nonneg_black : nonneg (mkColor 0 0 0).
Proof. unfold nonneg; cbn; lra. Qed.

Lemma nonneg_mul (u v : color) : nonneg u -> nonneg v -> nonneg (mul u v).
Proof.
  unfold nonneg; destruct u, v; cbn. intros (? & ? & ?) (? & ? & ?).
  repeat split; apply Rmult_le_pos; assumption.
Qed.

Lemma nonneg_add_assign (c1 c2 : color) :
  nonneg c1 -> nonneg c2 -> nonneg (add_assign c1 c2).
Proof.
  unfold nonneg; destruct c1, c2; cbn. intros (? & ? & ?) (? & ? & ?).
  repeat split; lra.
Qed.

Lemma hit_from_source {Material : Type} (objects : HittableList Material)
    (r : ray) (tMin : Float) :
  forall (closestSoFar : Float) (rec : option (HitRecord Material))
         (record : HitRecord Material),
    hit_from objects r tMin closestSoFar rec = Some record ->
    rec = Some record \/
    exists object tMax,
      In object objects /\ object_hit object r tMin tMax = Some record.
Proof.
  induction objects as [ | object rest IH]; intros closestSoFar rec record;
    cbn.
  - intros ->. left. reflexivity.
  - destruct (object_hit object r tMin closestSoFar) as [temp | ] eqn:Hobj;
      intros Hrest; apply IH in Hrest.
    + destruct Hrest as [[= ->] | (object1 & tMax & Hin & Hhit)].
      * right. exists object, closestSoFar. split; [ left; reflexivity | ].
        exact Hobj.
      * right. exists object1, tMax. split; [ right; exact Hin | exact Hhit ].
    + destruct Hrest as [-> | (object1 & tMax & Hin & Hhit)].
      * left. reflexivity.
      * right. exists object1, tMax. split; [ right; exact Hin | exact Hhit ].
Qed.

Lemma hit_scene_material {Material : Type} (world : HittableList Material)
    (r : ray) (tMin tMax : Float) (record : HitRecord Material) :
  hit world r tMin tMax = Some record ->
  scene_material world (material record).
Proof.
  unfold hit. intros Hhit. apply hit_from_source in Hhit.
  destruct Hhit as [Hnone | (object & tMax1 & Hin & Hobj)];
    [ discriminate | ].
  exists object, r, tMin, tMax1, record. auto.
Qed.

Lemma rayColor_nonneg (E : Externals) (world : HittableList (Material E)) :
  attenuations_nonneg E world ->
  forall (depth : Z) (r : ray) (gen : Generator E),
    nonneg (fst (rayColor E r world depth gen)).
Proof.
  intros Hatt depth.
  remember (Z.to_nat depth) as n eqn:Hn. revert depth Hn.
  induction n as [ | n IH]; intros depth Hn r gen.
  - rewrite rayColor_spent by lia. apply nonneg_black.
  - destruct (hit world r 0.001 (infinity E)) as [record | ] eqn:Hhit.
    + rewrite (rayColor_hit E r world depth gen record) by (lia || exact Hhit).
      destruct (scatter E (material record) r record gen)
        as [[[att sc] | ] gen1] eqn:Hsc.
      * unfold attenuate; cbn [fst]. apply nonneg_mul.
        -- apply (Hatt _ _ _ _ _ _ _ (hit_scene_material _ _ _ _ _ Hhit) Hsc).
        -- apply IH. lia.
      * apply nonneg_black.
    + rewrite rayColor_miss by (lia || exact Hhit). apply background_nonneg.
Qed.

(** ** The loops of render *)

Section RenderFacts.

Context (E : Externals).
Variables (W H : Z) (world : HittableList (Material E)) (maxDepth : Z)
          (camera : Camera E) (spp : Z) (j : Z).

Lemma sample_writes (i : Z) (pixelColor : color) (st : RenderState E) :
  let st1 := snd (sample E W H world maxDepth camera j i pixelColor st) in
  cerr st1 = cerr st /\ same_writers st st1 /\
  exists u rnd,
    traced st1 = traced st ++ [(u, (IZR j + rnd) / IZR (H - 1))].
Proof.
  unfold sample, bind, call_randomDouble, call_getRay, call_rayColor, ret,
    same_writers.
  cbn.
  destruct (randomDouble E (generator st)) as [r1 g1]; cbn.
  destruct (randomDouble E g1) as [r2 g2]; cbn.
  match goal with
  | |- context [rayColor E ?r ?w ?d ?g] =>
      destruct (rayColor E r w d g) as [c g3]
  end.
  cbn. repeat split; eauto.
Qed.

Lemma sample_nonneg (i : Z) (pixelColor : color) (st : RenderState E) :
  attenuations_nonneg E world ->
  nonneg pixelColor ->
  nonneg (fst (sample E W H world maxDepth camera j i pixelColor st)).
Proof.
  intros Hatt Hc.
  unfold sample, bind, call_randomDouble, call_getRay, call_rayColor, ret.
  cbn.
  destruct (randomDouble E (generator st)) as [r1 g1]; cbn.
  destruct (randomDouble E g1) as [r2 g2]; cbn.
  match goal with
  | |- context [rayColor E ?r ?w ?d ?g] =>
      pose proof (rayColor_nonneg E w Hatt d r g) as Hray;
      destruct (rayColor E r w d g) as [c g3]
  end.
  cbn in *. apply nonneg_add_assign; assumption.
Qed.

Lemma sample_loop_writes (n : nat) (i : Z) :
  forall (pixelColor : color) (st : RenderState E),
    let st1 :=
      snd (sample_loop E W H world maxDepth camera j n i pixelColor st) in
    cerr st1 = cerr st /\ same_writers st st1 /\
    List.length (traced st1) = (List.length (traced st) + n)%nat.
Proof.
  induction n as [ | n IH]; intros pixelColor st; cbn.
  - unfold same_writers. repeat split; lia.
  - unfold bind.
    pose proof (sample_writes i pixelColor st) as Hs.
    destruct (sample E W H world maxDepth camera j i pixelColor st)
      as [c st1].
    cbn in Hs. destruct Hs as (Hc & (Hp & Hg & Hj) & u & rnd & Ht).
    specialize (IH c st1). cbn in IH.
    destruct IH as (Hc' & (Hp' & Hg' & Hj') & Ht').
    unfold same_writers. rewrite Hc', Hp', Hg', Hj', Ht', Ht, length_app.
    cbn. repeat split; try assumption. lia.
Qed.

Lemma sample_loop_nonneg (n : nat) (i : Z) :
  attenuations_nonneg E world ->
  forall (pixelColor : color) (st : RenderState E),
    nonneg pixelColor ->
    nonneg (fst (sample_loop E W H world maxDepth camera j n i pixelColor st)).
Proof.
  intros Hatt. induction n as [ | n IH]; intros pixelColor st Hc; cbn.
  - exact Hc.
  - unfold bind.
    pose proof (sample_nonneg i pixelColor st Hatt Hc) as Hs.
    destruct (sample E W H world maxDepth camera j i pixelColor st)
      as [c st1].
    apply IH. exact Hs.
Qed.

(** One pixel: the samples, then one colour to each of the three writers. *)
Lemma pixel_writes (i : Z) (st : RenderState E) :
  let acc := sample_loop E W H world maxDepth camera j (Z.to_nat spp) i black st in
  let st1 := snd (pixel E W H world maxDepth camera spp j i st) in
  cerr st1 = cerr st /\
  ppm st1 = ppm st ++ [combine (fst acc) spp] /\
  png st1 = png st ++ [combine (fst acc) spp] /\
  jpg st1 = jpg st ++ [combine (fst acc) spp] /\
  traced st1 = traced (snd acc).
Proof.
  cbv zeta. unfold pixel, bind.
  pose proof (sample_loop_writes (Z.to_nat spp) i black st) as Hs.
  destruct (sample_loop E W H world maxDepth camera j (Z.to_nat spp) i black st)
    as [acc st1].
  cbn in Hs. destruct Hs as (Hc & (Hp & Hg & Hj) & Ht).
  cbn. rewrite Hc, Hp, Hg, Hj. repeat split.
Qed.

Lemma pixel_loop_counts (n : nat) :
  forall (i : Z) (st : RenderState E),
    let st1 := snd (pixel_loop E W H world maxDepth camera spp j n i st) in
    cerr st1 = cerr st /\
    List.length (ppm st1) = (List.length (ppm st) + n)%nat /\
    List.length (png st1) = (List.length (png st) + n)%nat /\
    List.length (jpg st1) = (List.length (jpg st) + n)%nat /\
    List.length (traced st1) =
      (List.length (traced st) + n * Z.to_nat spp)%nat.
Proof.
  induction n as [ | n IH]; intros i st; cbn.
  - repeat split; lia.
  - unfold bind.
    pose proof (pixel_writes i st) as Hp.
    pose proof (sample_loop_writes (Z.to_nat spp) i black st) as Hs.
    destruct (pixel E W H world maxDepth camera spp j i st) as [[] st1].
    cbn in Hp, Hs.
    destruct Hp as (Hc & Hppm & Hpng & Hjpg & Ht).
    destruct Hs as (_ & _ & Hlen).
    specialize (IH (i + 1)%Z st1). cbn in IH.
    destruct IH as (Hc' & Hppm' & Hpng' & Hjpg' & Ht').
    rewrite Hc', Hppm', Hpng', Hjpg', Ht', Hc, Hppm, Hpng, Hjpg, Ht, Hlen.
    rewrite !length_app. cbn. repeat split; lia.
Qed.

(** The whole of [render], started with [c] in its counter. *)
Lemma render_counts (c : Z) :
  forall (st : RenderState E),
    let st1 := render E W H world maxDepth camera spp j c st in
    cerr st1 = cerr st ++ countdown (Z.to_nat c) /\
    List.length (ppm st1) =
      (List.length (ppm st) + Z.to_nat c * Z.to_nat W)%nat /\
    List.length (png st1) =
      (List.length (png st) + Z.to_nat c * Z.to_nat W)%nat /\
    List.length (jpg st1) =
      (List.length (jpg st) + Z.to_nat c * Z.to_nat W)%nat /\
    List.length (traced st1) =
      (List.length (traced st) + Z.to_nat c * Z.to_nat W * Z.to_nat spp)%nat.
Proof.
  remember (Z.to_nat c) as n eqn:Hn. revert c Hn.
  induction n as [ | n IH]; intros c Hn st; cbv zeta; simp render.
  - destruct (Z_gt_le_dec c 0) as [Hgt | Hle]; [ lia | ]. cbn.
    rewrite app_nil_r. repeat split; lia.
  - destruct (Z_gt_le_dec c 0) as [Hgt | Hle]; [ | lia ]. cbn.
    assert (Hn' : n = Z.to_nat (c - 1)) by lia.
    specialize (IH (c - 1)%Z Hn'
                  (snd (scanline E W H world maxDepth camera spp j c st))).
    cbv zeta in IH. destruct IH as (Hc & Hppm & Hpng & Hjpg & Ht).
    unfold scanline, bind, print_remaining in *. cbn in *.
    match type of Hc with
    | context [pixel_loop E W H world maxDepth camera spp j ?m ?i ?s] =>
        pose proof (pixel_loop_counts m i s) as Hl
    end.
    cbn in Hl. destruct Hl as (Hc1 & Hppm1 & Hpng1 & Hjpg1 & Ht1).
    rewrite Hc, Hppm, Hpng, Hjpg, Ht, Hc1, Hppm1, Hpng1, Hjpg1, Ht1.
    rewrite <- app_assoc. cbn [app].
    repeat split; try lia.
    do 2 f_equal. lia.
Qed.

End RenderFacts.

(** ** The pool of threads *)

Lemma length_set_counter (k : nat) (c : Z) (l : list Z) :
  List.length (set_counter k c l) = List.length l.
Proof.
  revert k; induction l as [ | c0 l IH]; intros [ | k]; cbn; auto.
Qed.

Lemma nth_error_set_counter_same (k : nat) (c c0 : Z) (l : list Z) :
  nth_error l k = Some c0 -> nth_error (set_counter k c l) k = Some c.
Proof.
  revert k; induction l as [ | c1 l IH]; intros [ | k]; cbn;
    try discriminate; auto.
Qed.

Lemma nth_error_set_counter_other (k k' : nat) (c : Z) (l : list Z) :
  k' <> k -> nth_error (set_counter k c l) k' = nth_error l k'.
Proof.
  revert k k'; induction l as [ | c1 l IH]; intros [ | k] [ | k'] Hne; cbn;
    try reflexivity; try contradiction.
  apply IH. congruence.
Qed.

(** Replacing one counter changes a count of counters by what the old and
    the new value contribute. *)
Lemma count_set_counter (f : Z -> bool) (k : nat) (c c0 : Z) (l : list Z) :
  nth_error l k = Some c0 ->
  (List.length (filter f (set_counter k c l)) + (if f c0 then 1 else 0) =
   List.length (filter f l) + (if f c then 1 else 0))%nat.
Proof.
  revert k; induction l as [ | c1 l IH]; intros [ | k]; cbn;
    try discriminate.
  - intros [= ->]. destruct (f c), (f c0); cbn; lia.
  - intros Hk. specialize (IH k Hk). destruct (f c1); cbn; lia.
Qed.

Lemma claims_of_app (k : nat) (log1 log2 : list (nat * Z)) :
  claims_of k (log1 ++ log2) = claims_of k log1 ++ claims_of k log2.
Proof. unfold claims_of. rewrite filter_app, map_app. reflexivity. Qed.

Lemma times_claimed_app (row : Z) (log1 log2 : list (nat * Z)) :
  times_claimed row (log1 ++ log2) =
  (times_claimed row log1 + times_claimed row log2)%nat.
Proof. unfold times_claimed. rewrite filter_app, length_app. reflexivity. Qed.

Lemma countdown_pos (c : Z) :
  (c > 0)%Z -> countdown (Z.to_nat c) = c :: countdown (Z.to_nat (c - 1)).
Proof.
  intros Hc. replace (Z.to_nat c) with (S (Z.to_nat (c - 1))) by lia.
  cbn [countdown]. f_equal. lia.
Qed.

Section PoolFacts.

Variables (numThreads scanLinesLeft : Z).

Lemma pool_invariant_spawn :
  pool_invariant numThreads scanLinesLeft (spawn numThreads scanLinesLeft).
Proof.
  unfold spawn. split; cbn.
  - apply repeat_length.
  - intros k c Hk. apply nth_error_In, repeat_spec in Hk. subst c.
    reflexivity.
  - intros row Hrow. unfold times_claimed. cbn.
    induction (Z.to_nat numThreads) as [ | n IH]; cbn; [ reflexivity | ].
    destruct (Z.ltb_spec scanLinesLeft row); [ lia | exact IH ].
Qed.

Lemma pool_invariant_step (pool1 pool2 : Pool) :
  pool_invariant numThreads scanLinesLeft pool1 ->
  pool_step pool1 pool2 ->
  pool_invariant numThreads scanLinesLeft pool2.
Proof.
  intros [Hlen Hclaims Htimes] Hstep.
  destruct Hstep as [k c pool Hk Hc]. split; cbn [counters claimed].
  - rewrite length_set_counter. exact Hlen.
  - intros k' c' Hk'. rewrite claims_of_app.
    destruct (Nat.eq_dec k' k) as [-> | Hne].
    + rewrite (nth_error_set_counter_same k (c - 1) c _ Hk) in Hk'.
      injection Hk' as <-.
      unfold claims_of at 2. cbn. rewrite Nat.eqb_refl. cbn.
      rewrite <- app_assoc. cbn [app]. rewrite <- countdown_pos by exact Hc.
      apply Hclaims. exact Hk.
    + rewrite nth_error_set_counter_other in Hk' by exact Hne.
      unfold claims_of at 2. cbn.
      destruct (Nat.eqb_spec k k') as [Heq | _]; [ congruence | ].
      cbn. rewrite app_nil_r. apply Hclaims. exact Hk'.
  - intros row Hrow. rewrite times_claimed_app, (Htimes row Hrow).
    pose proof (count_set_counter (fun c => (c <? row)%Z) k (c - 1) c _ Hk)
      as Hcount.
    cbn beta in Hcount. unfold times_claimed at 1. cbn.
    destruct (Z.eqb_spec c row) as [-> | Hne]; cbn.
    + destruct (Z.ltb_spec row row); [ lia | ].
      destruct (Z.ltb_spec (row - 1) row); lia.
    + destruct (Z.ltb_spec c row), (Z.ltb_spec (c - 1) row); lia.
Qed.

Lemma pool_invariant_run (pool : Pool) :
  pool_run (spawn numThreads scanLinesLeft) pool ->
  pool_invariant numThreads scanLinesLeft pool.
Proof.
  intros Hrun.
  remember (spawn numThreads scanLinesLeft) as pool0 eqn:H0.
  induction Hrun as [pool | pool1 pool2 pool3 Hrun IH Hstep].
  - subst pool. apply pool_invariant_spawn.
  - eapply pool_invariant_step; [ apply IH; exact H0 | exact Hstep ].
Qed.

(** After the joins every thread has read every value from the initial
    counter down to 1. *)
Lemma joined_claims (pool : Pool) (k : nat) :
  pool_run (spawn numThreads scanLinesLeft) pool ->
  joined pool ->
  (k < Z.to_nat numThreads)%nat ->
  claims_of k (claimed pool) = countdown (Z.to_nat scanLinesLeft).
Proof.
  intros Hrun Hjoined Hk.
  destruct (pool_invariant_run pool Hrun) as [Hlen Hclaims _].
  destruct (nth_error (counters pool) k) as [c | ] eqn:Hnth.
  - assert (Hc : (c <= 0)%Z).
    { unfold joined in Hjoined. rewrite Forall_forall in Hjoined.
      apply Hjoined. eapply nth_error_In. exact Hnth. }
    rewrite <- (Hclaims k c Hnth).
    replace (Z.to_nat c) with O by lia. cbn. rewrite app_nil_r. reflexivity.
  - apply nth_error_None in Hnth. lia.
Qed.

Lemma joined_times (pool : Pool) (row : Z) :
  pool_run (spawn numThreads scanLinesLeft) pool ->
  joined pool ->
  (1 <= row <= scanLinesLeft)%Z ->
  times_claimed row (claimed pool) = Z.to_nat numThreads.
Proof.
  intros Hrun Hjoined Hrow.
  destruct (pool_invariant_run pool Hrun) as [Hlen _ Htimes].
  rewrite (Htimes row Hrow), <- Hlen.
  unfold joined in Hjoined. clear Hlen Htimes Hrun.
  induction Hjoined as [ | c l Hc _ IH]; cbn; [ reflexivity | ].
  destruct (Z.ltb_spec c row); [ cbn; f_equal; exact IH | lia ].
Qed.

End PoolFacts.

(** ** The image of main *)

Lemma imageHeight_value : imageHeight = 1080%Z.
Proof.
  unfold imageHeight, imageWidth, aspectRatio.
  apply truncate_nonneg; lra.
Qed.

(** ** clamp and combine *)


(** ** randomFloat *)

Lemma randomFloat_first (L : StdRandom) (min max : Float) (e : Engine L) :
  randomFloat L min max (mkStatics None e) =
  (fst (uniform_real L min (nextafter_up L max) e),
   mkStatics (Some (min, nextafter_up L max))
             (snd (uniform_real L min (nextafter_up L max) e))).
Proof.
  unfold randomFloat. cbn.
  destruct (uniform_real L min (nextafter_up L max) e); reflexivity.
Qed.

Lemma randomFloat_later (L : StdRandom) (min max a b : Float) (e : Engine L) :
  randomFloat L min max (mkStatics (Some (a, b)) e) =
  (fst (uniform_real L a b e),
   mkStatics (Some (a, b)) (snd (uniform_real L a b e))).
Proof.
  unfold randomFloat. cbn. destruct (uniform_real L a b e); reflexivity.
Qed.

Lemma closed_range_toyRandom : closed_range toyRandom.
Proof. intros a m e Ham. cbn. lra. Qed.

(** ** Each thread of the pool is a run of render *)

(** X5.  The values a thread reads at its decrements are those that
    [render], started on the same counter, prints turn after turn. *)
Lemma thread_claims_are_render_turns
    (E : Externals) (width height : Z) (world : HittableList (Material E))
    (maxDepth : Z) (camera : Camera E) (samples j : Z) (st : RenderState E)
    (numThreads scanLinesLeft : Z) (pool : Pool) (k : nat) :
  pool_run (spawn numThreads scanLinesLeft) pool ->
  joined pool ->
  (k < Z.to_nat numThreads)%nat ->
  cerr (render E width height world maxDepth camera samples j
               scanLinesLeft st) =
  cerr st ++ claims_of k (claimed pool).
Proof.
  intros Hrun Hjoined Hk.
  rewrite (joined_claims numThreads scanLinesLeft pool k Hrun Hjoined Hk).
  apply render_counts.
Qed.

(** ** The pool of main *)

Lemma pool_size (hardware_concurrency : N) :
  List.length (counters (main_pool hardware_concurrency)) =
  N.to_nat hardware_concurrency.
Proof.
  unfold main_pool, spawn. cbn [counters]. rewrite repeat_length. lia.
Qed.

(** In [main] every thread works through the 1079 values of its own
    counter. *)
Lemma main_threads_claim_alike
    (hardware_concurrency : N) (pool : Pool) (k : nat) :
  pool_run (main_pool hardware_concurrency) pool ->
  joined pool ->
  (k < N.to_nat hardware_concurrency)%nat ->
  claims_of k (claimed pool) = countdown 1079.
Proof.
  unfold main_pool. intros Hrun Hjoined Hk.
  rewrite (joined_claims _ _ pool k Hrun Hjoined) by lia.
  rewrite imageHeight_value. reflexivity.
Qed.

(** * The claims *)

(** C1.  The code does not share the counter: [render] takes it by value
    and [std::thread] copies it, so in every complete run of [numThreads]
    threads on an image of [height] rows each thread reads, at its own
    decrements, every value from [height - 1] down to 1, and each such value
    is read [numThreads] times, not once. *)
Theorem every_thread_claims_every_row
    (numThreads height : Z) (pool : Pool) (k : nat) (row : Z) :
  pool_run (spawn numThreads (height - 1)) pool ->
  joined pool ->
  (k < Z.to_nat numThreads)%nat ->
  (1 <= row <= height - 1)%Z ->
  claims_of k (claimed pool) = countdown (Z.to_nat (height - 1)) /\
  times_claimed row (claimed pool) = Z.to_nat numThreads.
Proof.
  intros Hrun Hjoined Hk Hrow. split.
  - apply (joined_claims numThreads (height - 1) pool k); assumption.
  - apply (joined_times numThreads (height - 1) pool row); assumption.
Qed.

(** Two threads, two rows: both threads read the value 1. *)
Lemma every_thread_claims_every_row_witness :
  claims_of 1 [(0%nat, 1%Z); (1%nat, 1%Z)] = [1%Z] /\
  times_claimed 1 [(0%nat, 1%Z); (1%nat, 1%Z)] = 2%nat.
Proof.
  apply (every_thread_claims_every_row 2 2
           (mkPool [0%Z; 0%Z] [(0%nat, 1%Z); (1%nat, 1%Z)]) 1 1).
  - apply (run_step _ (mkPool [0%Z; 1%Z] [(0%nat, 1%Z)])).
    + apply (run_step _ (mkPool [1%Z; 1%Z] [])).
      * apply run_refl.
      * exact (step_claim 0 1 (mkPool [1%Z; 1%Z] []) eq_refl eq_refl).
    + exact (step_claim 1 1 (mkPool [0%Z; 1%Z] [(0%nat, 1%Z)])
               eq_refl eq_refl).
  - repeat constructor; discriminate.
  - cbn. lia.
  - lia.
Defined.

(** C2.  Started as [main] starts it, with [height - 1] in the counter,
    [render] runs its loop for the values [height - 1] down to 1 only:
    it emits [(height - 1) * width] pixels and traces
    [(height - 1) * width * samples] camera rays, one row short of the
    image. *)
Theorem render_is_one_row_short
    (E : Externals) (width height : Z) (world : HittableList (Material E))
    (maxDepth : Z) (camera : Camera E) (samples j : Z)
    (st : RenderState E) :
  let st1 :=
    render E width height world maxDepth camera samples j (height - 1) st in
  cerr st1 = cerr st ++ countdown (Z.to_nat (height - 1)) /\
  List.length (ppm st1) =
    (List.length (ppm st) + Z.to_nat (height - 1) * Z.to_nat width)%nat /\
  List.length (traced st1) =
    (List.length (traced st) +
     Z.to_nat (height - 1) * Z.to_nat width * Z.to_nat samples)%nat.
Proof.
  pose proof (render_counts E width height world maxDepth camera samples j
                (height - 1) st) as Hr.
  cbv zeta in *. tauto.
Qed.

(** A 2 by 2 image at one sample per pixel: two camera rays, not four. *)
Example render_two_by_two :
  List.length
    (traced (render toyExternals 2 2 [] 1 tt 1 0 (2 - 1) toyState)) = 2%nat.
Proof.
  pose proof (render_counts toyExternals 2 2 [] 1 tt 1 0 (2 - 1) toyState)
    as Hr.
  cbv zeta in Hr. destruct Hr as (_ & _ & _ & _ & Ht). exact Ht.
Qed.

(** C3.  With a positive budget [rayColor] asks the scene for a hit between
    0.001 and infinity; on a hit it returns the attenuation times the colour
    of the scattered ray at [depth - 1] when the material scatters, and
    black when it absorbs. *)
Theorem rayColor_positive_budget
    (E : Externals) (r : ray) (world : HittableList (Material E))
    (depth : Z) (gen : Generator E) :
  (0 < depth)%Z ->
  0 < 0.001 /\
  rayColor E r world depth gen =
    match hit world r 0.001 (infinity E) with
    | Some record =>
        match scatter E (material record) r record gen with
        | (Some (attenuation, scattered), gen1) =>
            let rest := rayColor E scattered world (depth - 1) gen1 in
            (mul attenuation (fst rest), snd rest)
        | (None, gen1) => (mkColor 0 0 0, gen1)
        end
    | None => (background r, gen)
    end.
Proof.
  intros Hd. split; [ lra | ].
  destruct (hit world r 0.001 (infinity E)) as [record | ] eqn:Hhit.
  - rewrite (rayColor_hit E r world depth gen record Hd Hhit).
    destruct (scatter E (material record) r record gen)
      as [[[att sc] | ] gen1]; reflexivity.
  - apply rayColor_miss; assumption.
Qed.

(** One bounce off a mirror: the attenuation times the black of the spent
    budget. *)
Lemma rayColor_positive_budget_witness :
  rayColor toyExternals forward [wall Mirror] 1 O =
    (mul (mkColor 0.8 0.8 0.8)
         (fst (rayColor toyExternals forward [wall Mirror] (1 - 1) 1%nat)),
     snd (rayColor toyExternals forward [wall Mirror] (1 - 1) 1%nat)).
Proof.
  apply (rayColor_positive_budget toyExternals forward [wall Mirror] 1 O).
  reflexivity.
Defined.

(** C4.  With a bounce budget of zero or less [rayColor] returns black,
    whatever the ray and the scene, and draws no random number. *)
Theorem rayColor_budget_spent
    (E : Externals) (r : ray) (world : HittableList (Material E))
    (depth : Z) (gen : Generator E) :
  (depth <= 0)%Z ->
  rayColor E r world depth gen = (mkColor 0 0 0, gen).
Proof. apply rayColor_spent. Qed.

Lemma rayColor_budget_spent_witness :
  rayColor toyExternals forward [wall Mirror] 0 O = (mkColor 0 0 0, O).
Proof.
  apply (rayColor_budget_spent toyExternals forward [wall Mirror] 0 O).
  discriminate.
Defined.

(** C5.  A ray that hits nothing, with a positive budget, gets the
    background: (1 - t) (1, 1, 1) + t (0.5, 0.7, 1.0) with
    t = 0.5 (y + 1) for the y of the unit direction.  Against the empty
    scene a ray straight up gets (0.5, 0.7, 1.0) and a ray with no vertical
    component gets (0.75, 0.85, 1.0). *)
Theorem rayColor_background
    (E : Externals) (r : ray) (world : HittableList (Material E))
    (depth : Z) (gen : Generator E) (o : point3) (k a c : Float) :
  (0 < depth)%Z ->
  0 < k ->
  hit world r 0.001 (infinity E) = None ->
  (let t := 0.5 * (y (unitVector (direction r)) + 1) in
   rayColor E r world depth gen =
     (add (scale (1 - t) (mkColor 1 1 1)) (scale t (mkColor 0.5 0.7 1.0)),
      gen)) /\
  rayColor E (mkRay o (mkVec 0 k 0)) [] depth gen = (mkColor 0.5 0.7 1.0, gen) /\
  rayColor E (mkRay o (mkVec a 0 c)) [] depth gen =
    (mkColor 0.75 0.85 1.0, gen).
Proof.
  intros Hd Hk Hmiss. repeat split.
  - rewrite (rayColor_miss E r world depth gen Hd Hmiss).
    unfold background. cbv zeta.
    replace (1.0) with 1 by lra. reflexivity.
  - rewrite rayColor_miss by (exact Hd || reflexivity).
    rewrite background_components. cbv zeta. cbn [direction].
    rewrite (unitVector_up k Hk). do 2 f_equal; lra.
  - rewrite rayColor_miss by (exact Hd || reflexivity).
    rewrite background_components. cbv zeta. cbn [direction].
    rewrite unitVector_level. do 2 f_equal; lra.
Qed.

Lemma rayColor_background_witness :
  rayColor toyExternals (mkRay (mkVec 0 0 0) (mkVec 0 1 0)) [] 50 O =
    (mkColor 0.5 0.7 1.0, O) /\
  rayColor toyExternals forward [] 50 O = (mkColor 0.75 0.85 1.0, O).
Proof.
  apply (rayColor_background toyExternals forward [] 50 O
           (mkVec 0 0 0) 1 0 (-1)).
  - reflexivity.
  - lra.
  - reflexivity.
Defined.

(** C6.  When every attenuation of the materials of the scene is
    non-negative, so is every component of the colour [rayColor] returns,
    and so is the colour a pixel has accumulated with [operator+=] after
    any number [n] of samples. *)
Theorem colours_are_non_negative
    (E : Externals) (world : HittableList (Material E))
    (r : ray) (depth : Z) (gen : Generator E)
    (width height maxDepth : Z) (camera : Camera E) (j : Z)
    (n : nat) (i : Z) (st : RenderState E) :
  attenuations_nonneg E world ->
  nonneg (fst (rayColor E r world depth gen)) /\
  nonneg (fst (sample_loop E width height world maxDepth camera j n i
                           black st)).
Proof.
  intros Hatt. split.
  - apply rayColor_nonneg. exact Hatt.
  - apply sample_loop_nonneg; [ exact Hatt | apply nonneg_black ].
Qed.

Lemma attenuations_nonneg_toy (world : HittableList toyMaterial) :
  attenuations_nonneg toyExternals world.
Proof.
  intros m r record gen att sc gen1 _ Hsc. destruct m; cbn in Hsc.
  - injection Hsc as <- _ _. unfold nonneg; cbn. lra.
  - discriminate.
Qed.

Lemma colours_are_non_negative_witness :
  nonneg (fst (rayColor toyExternals forward [wall Mirror] 50 O)) /\
  nonneg (fst (sample_loop toyExternals 2 2 [wall Mirror] 50 tt 0 3 0
                           black toyState)).
Proof.
  apply (colours_are_non_negative toyExternals [wall Mirror] forward 50 O
           2 2 50 tt 0 3 0 toyState).
  apply attenuations_nonneg_toy.
Defined.


(** C8.  [main] starts one thread for each unit of hardware concurrency
    that the platform reports, each on a counter of [imageHeight - 1],
    which is 1079; nothing raises the number of threads when the report
    is zero. *)
Theorem pool_has_one_thread_per_reported_unit (hardware_concurrency : N) :
  counters (main_pool hardware_concurrency) =
  repeat 1079%Z (N.to_nat hardware_concurrency).
Proof.
  unfold main_pool, spawn. cbn [counters].
  rewrite imageHeight_value. f_equal. lia.
Qed.

(** With a hardware concurrency of zero there is no thread at all. *)
Lemma no_thread_when_concurrency_is_zero :
  ~ (1 <= List.length (counters (main_pool 0)))%nat.
Proof.
  rewrite pool_size. cbn. lia.
Qed.

(** C9.  Each channel accessor returns the product of 255 and its
    component, truncated toward zero: [max] is not read and nothing is
    clamped.  A component of at least 256/255 gives more than 255 and a
    component of at most -1/255 gives a negative number. *)
Theorem channel_is_truncated_product
    (f : color -> Float -> option Z) (component : color -> Float)
    (c : color) (max : Float) (n : Z) :
  In (f, component) [(r, raw_r); (g, raw_g); (b, raw_b)] ->
  f c max = Some n ->
  f c max = static_cast_int (255.0 * component c) /\
  n = truncate (255.0 * component c) /\
  (256 / 255 <= component c -> (255 < n)%Z) /\
  (component c <= - 1 / 255 -> (n < 0)%Z).
Proof.
  intros Hin Hn.
  assert (Hf : f c max = static_cast_int (255.0 * component c)).
  { cbn in Hin.
    destruct Hin as [[= <- <-] | [[= <- <-] | [[= <- <-] | []]]];
      reflexivity. }
  split; [ exact Hf | ].
  rewrite Hf in Hn. apply static_cast_int_Some in Hn.
  destruct (truncate_bounds (255.0 * component c)) as [Hpos Hneg].
  rewrite Hn in Hpos, Hneg.
  split; [ symmetry; exact Hn | ].
  split; intros Hc; apply lt_IZR; lra.
Qed.

Lemma channel_is_truncated_product_witness :
  r (mkColor (513 / 512) 0 0) 255 =
    static_cast_int (255.0 * (513 / 512)) /\
  255%Z = truncate (255.0 * (513 / 512)).
Proof.
  destruct (channel_is_truncated_product r raw_r (mkColor (513 / 512) 0 0)
              255 255%Z (or_introl eq_refl) r_just_above_one)
    as (H1 & H2 & _).
  split; [ exact H1 | exact H2 ].
Defined.

(** A component above 1 that does not map above 255. *)
Lemma channel_above_one_counterexample :
  ~ (forall (c : color) (max : Float) (n : Z),
       r c max = Some n ->
       (1 < raw_r c -> (255 < n)%Z) /\ (raw_r c < 0 -> (n < 0)%Z)).
Proof.
  intros Hclaim.
  destruct (Hclaim (mkColor (513 / 512) 0 0) 255 255%Z r_just_above_one)
    as [Habove _].
  cbn [raw_r] in Habove.
  assert (H1 : 1 < 513 / 512) by lra.
  specialize (Habove H1). lia.
Qed.

(** C10.  The distribution of [randomFloat(min, max)] is a function-local
    static: the first call constructs it from its own bounds and every later
    call draws from it again.  A second call with other bounds returns a
    value within the bounds of the first call, hence outside of its own
    when the two ranges are apart. *)
Theorem randomFloat_keeps_first_bounds
    (L : StdRandom) (min1 max1 min2 max2 : Float) (e : Engine L) :
  closed_range L ->
  min1 <= max1 ->
  max1 < min2 ->
  let first := randomFloat L min1 max1 (mkStatics None e) in
  let second := randomFloat L min2 max2 (snd first) in
  min1 <= fst first <= max1 /\
  min1 <= fst second <= max1 /\
  ~ (min2 <= fst second <= max2).
Proof.
  intros Hrange H1 H2. cbv zeta.
  rewrite randomFloat_first. cbn [fst snd].
  rewrite randomFloat_later. cbn [fst snd].
  pose proof (Hrange min1 max1 e H1) as Hv1.
  pose proof (Hrange min1 max1
                (snd (uniform_real L min1 (nextafter_up L max1) e)) H1)
    as Hv2.
  repeat split; try lra.
Qed.

Lemma randomFloat_keeps_first_bounds_witness :
  ~ (5 <= fst (randomFloat toyRandom 5 6
                 (snd (randomFloat toyRandom 0 1 toyStatics))) <= 6).
Proof.
  apply (randomFloat_keeps_first_bounds toyRandom 0 1 5 6 O).
  - exact closed_range_toyRandom.
  - lra.
  - lra.
Defined.

(** * More properties of the code *)

(** ** clamp *)

(** X1.  With bounds in order, [clamp] returns a value between them. *)
Theorem clamp_within_bounds (v min max : Float) :
  min <= max -> min <= clamp v min max <= max.
Proof.
  intros Hb. unfold clamp.
  destruct (Rlt_dec v min); [ lra | ].
  destruct (Rgt_dec v max); lra.
Qed.

Lemma clamp_within_bounds_witness : 0 <= clamp 2 0 1 <= 1.
Proof. apply (clamp_within_bounds 2 0 1). lra. Defined.

(** X2.  [clamp] returns a value that is already between the bounds
    unchanged. *)
Theorem clamp_keeps_inner_values (v min max : Float) :
  min <= v <= max -> clamp v min max = v.
Proof.
  intros Hv. unfold clamp.
  destruct (Rlt_dec v min); [ lra | ].
  destruct (Rgt_dec v max); lra.
Qed.

Lemma clamp_keeps_inner_values_witness : clamp 0.5 0 1 = 0.5.
Proof. apply (clamp_keeps_inner_values 0.5 0 1). lra. Defined.

(** X3.  With bounds in order, clamping twice is clamping once. *)
Theorem clamp_idempotent (v min max : Float) :
  min <= max ->
  clamp (clamp v min max) min max = clamp v min max.
Proof.
  intros Hb. unfold clamp.
  destruct (Rlt_dec v min) as [H1 | H1].
  - destruct (Rlt_dec min min); [ lra | ].
    destruct (Rgt_dec min max); lra.
  - destruct (Rgt_dec v max) as [H2 | H2].
    + destruct (Rlt_dec max min); [ lra | ].
      destruct (Rgt_dec max max); lra.
    + destruct (Rlt_dec v min); [ lra | ].
      destruct (Rgt_dec v max); lra.
Qed.

Lemma clamp_idempotent_witness :
  clamp (clamp 2 0 1) 0 1 = clamp 2 0 1.
Proof. apply (clamp_idempotent 2 0 1). lra. Defined.

(** X4.  With bounds in order, [clamp] preserves the order of its
    arguments. *)
Theorem clamp_monotone (v w min max : Float) :
  min <= max -> v <= w -> clamp v min max <= clamp w min max.
Proof.
  intros Hb Hvw. unfold clamp.
  destruct (Rlt_dec v min), (Rlt_dec w min); try lra;
    destruct (Rgt_dec v max), (Rgt_dec w max); lra.
Qed.

Lemma clamp_monotone_witness : clamp (-1) 0 1 <= clamp 2 0 1.
Proof. apply (clamp_monotone (-1) 2 0 1); lra. Defined.

(** ** The channel accessors *)

Lemma truncate_monotone (v w : Float) :
  v <= w -> (truncate v <= truncate w)%Z.
Proof.
  intros Hvw.
  destruct (truncate_bounds v) as [Hv0 Hv1].
  destruct (truncate_bounds w) as [Hw0 Hw1].
  destruct (Rle_lt_dec 0 v) as [Hv | Hv];
    destruct (Rle_lt_dec 0 w) as [Hw | Hw]; try lra.
  - specialize (Hv0 Hv). specialize (Hw0 Hw).
    assert ((truncate v < truncate w + 1)%Z)
      by (apply lt_IZR; rewrite plus_IZR; lra).
    lia.
  - specialize (Hv1 Hv). specialize (Hw0 Hw).
    assert ((truncate v < 1)%Z) by (apply lt_IZR; lra).
    assert ((-1 < truncate w)%Z) by (apply lt_IZR; lra).
    lia.
  - specialize (Hv1 Hv). specialize (Hw1 Hw).
    assert ((truncate v < truncate w + 1)%Z)
      by (apply lt_IZR; rewrite plus_IZR; lra).
    lia.
Qed.

(** X7.  For a component between 0 and 1 every channel accessor returns a
    number from 0 to 255. *)
Theorem channel_of_unit_component
    (f : color -> Float -> option Z) (component : color -> Float)
    (c : color) (max : Float) :
  In (f, component) [(r, raw_r); (g, raw_g); (b, raw_b)] ->
  0 <= component c <= 1 ->
  exists n : Z, f c max = Some n /\ (0 <= n <= 255)%Z.
Proof.
  intros Hin Hc.
  assert (Hf : f c max = static_cast_int (255.0 * component c)).
  { cbn in Hin.
    destruct Hin as [[= <- <-] | [[= <- <-] | [[= <- <-] | []]]];
      reflexivity. }
  exists (truncate (255.0 * component c)).
  destruct (truncate_bounds (255.0 * component c)) as [Hpos _].
  assert (Hn : (0 <= truncate (255.0 * component c) <= 255)%Z).
  { assert (H0 : 0 <= 255.0 * component c) by lra. specialize (Hpos H0).
    assert ((-1 < truncate (255.0 * component c))%Z)
      by (apply lt_IZR; lra).
    assert ((truncate (255.0 * component c) < 256)%Z)
      by (apply lt_IZR; lra).
    lia. }
  split; [ | exact Hn ].
  rewrite Hf. unfold static_cast_int, INT_MIN, INT_MAX.
  destruct (Z.leb_spec (-2147483648) (truncate (255.0 * component c)));
    [ | lia ].
  destruct (Z.leb_spec (truncate (255.0 * component c)) 2147483647);
    [ reflexivity | lia ].
Qed.

Lemma channel_of_unit_component_witness :
  exists n : Z, g (mkColor 1 0.5 0) 255 = Some n /\ (0 <= n <= 255)%Z.
Proof.
  apply (channel_of_unit_component g raw_g (mkColor 1 0.5 0) 255).
  - right. left. reflexivity.
  - cbn. lra.
Defined.

(** X8.  A larger component never gives a smaller channel value. *)
Theorem channel_monotone
    (f : color -> Float -> option Z) (component : color -> Float)
    (c1 c2 : color) (max1 max2 : Float) (n1 n2 : Z) :
  In (f, component) [(r, raw_r); (g, raw_g); (b, raw_b)] ->
  component c1 <= component c2 ->
  f c1 max1 = Some n1 ->
  f c2 max2 = Some n2 ->
  (n1 <= n2)%Z.
Proof.
  intros Hin Hc H1 H2.
  assert (Hf : forall c max, f c max = static_cast_int (255.0 * component c)).
  { cbn in Hin.
    destruct Hin as [[= <- <-] | [[= <- <-] | [[= <- <-] | []]]];
      reflexivity. }
  rewrite Hf in H1, H2.
  apply static_cast_int_Some in H1, H2. subst n1 n2.
  apply truncate_monotone. lra.
Qed.

Lemma channel_monotone_witness :
  r (mkColor (- 1 / 512) 0 0) 255 = Some 0%Z /\
  r (mkColor (513 / 512) 0 0) 255 = Some 255%Z /\
  (0 <= 255)%Z.
Proof.
  split; [ exact r_just_below_zero | ].
  split; [ exact r_just_above_one | ].
  apply (channel_monotone r raw_r (mkColor (- 1 / 512) 0 0)
           (mkColor (513 / 512) 0 0) 255 255 0 255).
  - left. reflexivity.
  - cbn. lra.
  - exact r_just_below_zero.
  - exact r_just_above_one.
Defined.

(** ** randomFloat and the random colours *)




Lemma randomFloat0_unit (L : StdRandom) (s : Statics L) :
  closed_range L ->
  unit_statics L s ->
  -1 <= fst (randomFloat0 L s) <= 1 /\
  settled L (-1) 1 (snd (randomFloat0 L s)).
Proof.
  intros Hrange Hs. destruct s as [d e]. unfold randomFloat0.
  assert (Hd : match d with
               | Some d0 => d0
               | None => (-1, nextafter_up L 1)
               end = (-1, nextafter_up L 1)).
  { destruct Hs as [Hs | Hs]; unfold settled in Hs; cbn in Hs; subst d;
      reflexivity. }
  cbn [distribution engine]. rewrite Hd. cbn [fst snd].
  pose proof (Hrange (-1) 1 e ltac:(lra)) as Hv.
  destruct (uniform_real L (-1) (nextafter_up L 1) e) as [v e1].
  cbn [fst snd] in *. split; [ exact Hv | reflexivity ].
Qed.

(** X9.  Every call of [randomFloat()] returns a value from -1 to 1 and
    leaves its statics in a state from which the next call does so
    again. *)
Theorem randomFloat0_stays_in_range (L : StdRandom) (s : Statics L) :
  closed_range L ->
  unit_statics L s ->
  -1 <= fst (randomFloat0 L s) <= 1 /\
  unit_statics L (snd (randomFloat0 L s)).
Proof.
  intros Hrange Hs.
  destruct (randomFloat0_unit L s Hrange Hs) as [Hv Hs1].
  split; [ exact Hv | right; exact Hs1 ].
Qed.

Lemma randomFloat0_stays_in_range_witness :
  -1 <= fst (randomFloat0 toyRandom toyStatics) <= 1 /\
  unit_statics toyRandom (snd (randomFloat0 toyRandom toyStatics)).
Proof.
  apply (randomFloat0_stays_in_range toyRandom toyStatics).
  - exact closed_range_toyRandom.
  - left. reflexivity.
Defined.

(** X10.  The three components of [random()] lie between -1 and 1, and the
    statics are left ready for the next call. *)
Theorem random0_within_unit (L : StdRandom) (s : Statics L) :
  closed_range L ->
  unit_statics L s ->
  within (-1) 1 (fst (random0 L s)) /\
  unit_statics L (snd (random0 L s)).
Proof.
  intros Hrange Hs. unfold random0.
  pose proof (randomFloat0_unit L s Hrange Hs) as [H0 Hs1].
  destruct (randomFloat0 L s) as [v0 s1]. cbn [fst snd] in *.
  pose proof (randomFloat0_unit L s1 Hrange (or_intror Hs1)) as [H1 Hs2].
  destruct (randomFloat0 L s1) as [v1 s2]. cbn [fst snd] in *.
  pose proof (randomFloat0_unit L s2 Hrange (or_intror Hs2)) as [H2 Hs3].
  destruct (randomFloat0 L s2) as [v2 s3]. cbn [fst snd] in *.
  unfold within. cbn [raw_r raw_g raw_b]. split; [ auto | right; exact Hs3 ].
Qed.

Lemma random0_within_unit_witness :
  within (-1) 1 (fst (random0 toyRandom toyStatics)) /\
  unit_statics toyRandom (snd (random0 toyRandom toyStatics)).
Proof.
  apply (random0_within_unit toyRandom toyStatics).
  - exact closed_range_toyRandom.
  - left. reflexivity.
Defined.



(** ** rayColor: the range of its result *)

Lemma background_range (r : ray) :
  0.5 <= raw_r (background r) <= 1 /\
  0.7 <= raw_g (background r) <= 1 /\
  raw_b (background r) = 1.
Proof.
  rewrite background_components. cbv zeta.
  pose proof (unitVector_y_range (direction r)) as Hy.
  cbn [raw_r raw_g raw_b]. repeat split; nra.
Qed.

Lemma within_unit_mul (u v : color) :
  within 0 1 u -> within 0 1 v -> within 0 1 (mul u v).
Proof.
  unfold within; destruct u, v; cbn.
  intros (? & ? & ?) (? & ? & ?). repeat split; nra.
Qed.

Lemma rayColor_within_unit (E : Externals)
    (world : HittableList (Material E)) :
  attenuations_within_unit E world ->
  forall (depth : Z) (r : ray) (gen : Generator E),
    within 0 1 (fst (rayColor E r world depth gen)).
Proof.
  intros Hatt depth.
  remember (Z.to_nat depth) as n eqn:Hn. revert depth Hn.
  induction n as [ | n IH]; intros depth Hn r gen.
  - rewrite rayColor_spent by lia. unfold within; cbn. lra.
  - destruct (hit world r 0.001 (infinity E)) as [record | ] eqn:Hhit.
    + rewrite (rayColor_hit E r world depth gen record) by (lia || exact Hhit).
      destruct (scatter E (material record) r record gen)
        as [[[att sc] | ] gen1] eqn:Hsc.
      * unfold attenuate; cbn [fst]. apply within_unit_mul.
        -- apply (Hatt _ _ _ _ _ _ _ (hit_scene_material _ _ _ _ _ Hhit) Hsc).
        -- apply IH. lia.
      * unfold within; cbn. lra.
    + rewrite rayColor_miss by (lia || exact Hhit).
      pose proof (background_range r) as (Hr & Hg & Hb).
      unfold within. cbn [fst]. rewrite Hb. lra.
Qed.

Lemma attenuations_within_unit_toy (world : HittableList toyMaterial) :
  attenuations_within_unit toyExternals world.
Proof.
  intros m r record gen att sc gen1 _ Hsc. destruct m; cbn in Hsc.
  - injection Hsc as <- _ _. unfold within; cbn. lra.
  - discriminate.
Qed.

(** X12.  When every attenuation of the materials of the scene has its
    components between 0 and 1, so has the colour [rayColor] returns, for
    every ray and every budget. *)
Theorem rayColor_stays_in_unit_cube
    (E : Externals) (world : HittableList (Material E))
    (r : ray) (depth : Z) (gen : Generator E) :
  attenuations_within_unit E world ->
  within 0 1 (fst (rayColor E r world depth gen)).
Proof.
  intros Hatt. apply rayColor_within_unit. exact Hatt.
Qed.

Lemma rayColor_stays_in_unit_cube_witness :
  within 0 1 (fst (rayColor toyExternals forward [wall Mirror] 50 O)).
Proof.
  apply (rayColor_stays_in_unit_cube toyExternals [wall Mirror] forward 50 O).
  apply attenuations_within_unit_toy.
Defined.

(** X13.  Under the same condition the colour a pixel has accumulated
    after [n] samples has its components between 0 and [n]. *)
Theorem accumulated_colour_at_most_samples
    (E : Externals) (width height : Z) (world : HittableList (Material E))
    (maxDepth : Z) (camera : Camera E) (j : Z) (n : nat) (i : Z)
    (st : RenderState E) :
  attenuations_within_unit E world ->
  within 0 (INR n)
    (fst (sample_loop E width height world maxDepth camera j n i black st)).
Proof.
  intros Hatt.
  assert (Hgen : forall (m : nat) (c : color) (st0 : RenderState E) (a : R),
             within 0 a c ->
             within 0 (a + INR m)
               (fst (sample_loop E width height world maxDepth camera j m i
                                 c st0))).
  { induction m as [ | m IH]; intros c st0 a Hc.
    - cbn. rewrite Rplus_0_r. exact Hc.
    - cbn [sample_loop]. unfold bind.
      assert (Hs : within 0 (a + 1)
                     (fst (sample E width height world maxDepth camera j i
                                  c st0))).
      { unfold sample, bind, call_randomDouble, call_getRay, call_rayColor,
          ret. cbn.
        destruct (randomDouble E (generator st0)) as [r1 g1]; cbn.
        destruct (randomDouble E g1) as [r2 g2]; cbn.
        match goal with
        | |- context [rayColor E ?r ?w ?d ?g] =>
            pose proof (rayColor_within_unit E w Hatt d r g) as Hray;
            destruct (rayColor E r w d g) as [c1 g3]
        end.
        cbn in *. unfold within in *. destruct c, c1.
        cbn [add_assign raw_r raw_g raw_b] in *. lra. }
      destruct (sample E width height world maxDepth camera j i c st0)
        as [c1 st1].
      cbn [fst] in Hs. specialize (IH c1 st1 (a + 1) Hs).
      rewrite S_INR. replace (a + (INR m + 1)) with (a + 1 + INR m) by ring.
      exact IH. }
  specialize (Hgen n black st 0).
  rewrite Rplus_0_l in Hgen. apply Hgen.
  unfold within, black; cbn. lra.
Qed.

Lemma accumulated_colour_at_most_samples_witness :
  within 0 (INR 3)
    (fst (sample_loop toyExternals 2 2 [wall Mirror] 50 tt 0 3 0 black
                      toyState)).
Proof.
  apply (accumulated_colour_at_most_samples toyExternals 2 2 [wall Mirror]
           50 tt 0 3 0 toyState).
  apply attenuations_within_unit_toy.
Defined.

(** X14.  With a bounce budget of exactly 1 a ray that hits the scene gets
    black, whether the material scatters it or absorbs it. *)
Theorem rayColor_single_bounce_is_black
    (E : Externals) (r : ray) (world : HittableList (Material E))
    (gen : Generator E) (record : HitRecord (Material E)) :
  hit world r 0.001 (infinity E) = Some record ->
  fst (rayColor E r world 1 gen) = mkColor 0 0 0.
Proof.
  intros Hhit.
  rewrite (rayColor_hit E r world 1 gen record) by (lia || exact Hhit).
  destruct (scatter E (material record) r record gen)
    as [[[att sc] | ] gen1]; [ | reflexivity ].
  unfold attenuate. cbn [fst]. rewrite rayColor_spent by lia.
  cbn [fst]. unfold mul. cbn [raw_r raw_g raw_b]. f_equal; ring.
Qed.

Lemma rayColor_single_bounce_is_black_witness :
  fst (rayColor toyExternals forward [wall Mirror] 1 O) = mkColor 0 0 0.
Proof.
  apply (rayColor_single_bounce_is_black toyExternals forward [wall Mirror] O
           (mkHitRecord (mkVec 0 0 0) (mkVec 0 1 0) 1 Mirror)).
  reflexivity.
Defined.

(** X15.  The colour of a ray that hits nothing has a blue component of
    exactly 1, a red component from 0.5 to 1 and a green component from
    0.7 to 1. *)
Theorem rayColor_sky_range
    (E : Externals) (r : ray) (world : HittableList (Material E))
    (depth : Z) (gen : Generator E) :
  (0 < depth)%Z ->
  hit world r 0.001 (infinity E) = None ->
  0.5 <= raw_r (fst (rayColor E r world depth gen)) <= 1 /\
  0.7 <= raw_g (fst (rayColor E r world depth gen)) <= 1 /\
  raw_b (fst (rayColor E r world depth gen)) = 1.
Proof.
  intros Hd Hmiss. rewrite (rayColor_miss E r world depth gen Hd Hmiss).
  cbn [fst]. apply background_range.
Qed.

Lemma rayColor_sky_range_witness :
  0.5 <= raw_r (fst (rayColor toyExternals forward [] 50 O)) <= 1 /\
  0.7 <= raw_g (fst (rayColor toyExternals forward [] 50 O)) <= 1 /\
  raw_b (fst (rayColor toyExternals forward [] 50 O)) = 1.
Proof.
  apply (rayColor_sky_range toyExternals forward [] 50 O); reflexivity.
Defined.

(** ** render: what reaches the writers *)

Section RenderStreams.

Context (E : Externals).
Variables (W H : Z) (world : HittableList (Material E)) (maxDepth : Z)
          (camera : Camera E) (spp : Z) (j : Z).

Lemma pixel_loop_streams (n : nat) :
  forall (i : Z) (st : RenderState E),
    let st1 := snd (pixel_loop E W H world maxDepth camera spp j n i st) in
    exists l : list color,
      ppm st1 = ppm st ++ l /\ png st1 = png st ++ l /\ jpg st1 = jpg st ++ l.
Proof.
  induction n as [ | n IH]; intros i st; cbn.
  - exists []. rewrite !app_nil_r. auto.
  - unfold bind.
    pose proof (pixel_writes E W H world maxDepth camera spp j i st) as Hp.
    destruct (pixel E W H world maxDepth camera spp j i st) as [[] st1].
    cbn in Hp. destruct Hp as (_ & Hppm & Hpng & Hjpg & _).
    destruct (IH (i + 1)%Z st1) as (l & Hppm' & Hpng' & Hjpg').
    cbn in Hppm', Hpng', Hjpg'.
    eexists. rewrite Hppm', Hpng', Hjpg', Hppm, Hpng, Hjpg.
    rewrite <- !app_assoc. auto.
Qed.

Lemma render_streams (c : Z) :
  forall (st : RenderState E),
    let st1 := render E W H world maxDepth camera spp j c st in
    exists l : list color,
      ppm st1 = ppm st ++ l /\ png st1 = png st ++ l /\ jpg st1 = jpg st ++ l.
Proof.
  remember (Z.to_nat c) as n eqn:Hn. revert c Hn.
  induction n as [ | n IH]; intros c Hn st; cbv zeta; simp render.
  - destruct (Z_gt_le_dec c 0) as [Hgt | Hle]; [ lia | ]. cbn.
    exists []. rewrite !app_nil_r. auto.
  - destruct (Z_gt_le_dec c 0) as [Hgt | Hle]; [ | lia ]. cbn.
    assert (Hn' : n = Z.to_nat (c - 1)) by lia.
    destruct (IH (c - 1)%Z Hn'
                (snd (scanline E W H world maxDepth camera spp j c st)))
      as (l2 & Hppm2 & Hpng2 & Hjpg2).
    unfold scanline, bind, print_remaining in *. cbn in *.
    match type of Hppm2 with
    | context [pixel_loop E W H world maxDepth camera spp j ?m ?i ?s] =>
        destruct (pixel_loop_streams m i s) as (l1 & Hppm1 & Hpng1 & Hjpg1)
    end.
    cbn in Hppm1, Hpng1, Hjpg1.
    exists (l1 ++ l2).
    rewrite Hppm2, Hpng2, Hjpg2, Hppm1, Hpng1, Hjpg1, <- !app_assoc. auto.
Qed.

(** With no column the loop over [i] does nothing. *)
Lemma render_no_column (c : Z) :
  (W <= 0)%Z ->
  forall (st : RenderState E),
    render E W H world maxDepth camera spp j c st =
    mkRenderState E (generator st) (cerr st ++ countdown (Z.to_nat c))
                  (ppm st) (png st) (jpg st) (traced st).
Proof.
  intros HW.
  remember (Z.to_nat c) as n eqn:Hn. revert c Hn.
  induction n as [ | n IH]; intros c Hn st; simp render.
  - destruct (Z_gt_le_dec c 0) as [Hgt | Hle]; [ lia | ]. cbn.
    rewrite app_nil_r. destruct st; reflexivity.
  - destruct (Z_gt_le_dec c 0) as [Hgt | Hle]; [ | lia ]. cbn.
    assert (Hn' : n = Z.to_nat (c - 1)) by lia.
    rewrite (IH (c - 1)%Z Hn').
    unfold scanline, bind, print_remaining.
    replace (Z.to_nat W) with O by lia. cbn.
    rewrite <- app_assoc. cbn [app].
    do 3 f_equal. lia.
Qed.

(** With no sample a pixel is the default colour, combined. *)
Lemma pixel_loop_no_sample (n : nat) :
  (spp <= 0)%Z ->
  forall (i : Z) (st : RenderState E),
    snd (pixel_loop E W H world maxDepth camera spp j n i st) =
    mkRenderState E (generator st) (cerr st)
                  (ppm st ++ repeat (combine black spp) n)
                  (png st ++ repeat (combine black spp) n)
                  (jpg st ++ repeat (combine black spp) n)
                  (traced st).
Proof.
  intros Hs. induction n as [ | n IH]; intros i st.
  - cbn. rewrite !app_nil_r. destruct st; reflexivity.
  - cbn [pixel_loop]. unfold bind at 1.
    assert (Hp : pixel E W H world maxDepth camera spp j i st =
                 (tt, mkRenderState E (generator st) (cerr st)
                        (ppm st ++ [combine black spp])
                        (png st ++ [combine black spp])
                        (jpg st ++ [combine black spp])
                        (traced st))).
    { unfold pixel. replace (Z.to_nat spp) with O by lia.
      reflexivity. }
    rewrite Hp. rewrite IH. cbn.
    rewrite <- !app_assoc. reflexivity.
Qed.

Lemma render_no_sample (c : Z) :
  (spp <= 0)%Z ->
  forall (st : RenderState E),
    render E W H world maxDepth camera spp j c st =
    mkRenderState E (generator st) (cerr st ++ countdown (Z.to_nat c))
      (ppm st ++ repeat (combine black spp) (Z.to_nat c * Z.to_nat W))
      (png st ++ repeat (combine black spp) (Z.to_nat c * Z.to_nat W))
      (jpg st ++ repeat (combine black spp) (Z.to_nat c * Z.to_nat W))
      (traced st).
Proof.
  intros Hs.
  remember (Z.to_nat c) as n eqn:Hn. revert c Hn.
  induction n as [ | n IH]; intros c Hn st; simp render.
  - destruct (Z_gt_le_dec c 0) as [Hgt | Hle]; [ lia | ]. cbn.
    rewrite !app_nil_r. destruct st; reflexivity.
  - destruct (Z_gt_le_dec c 0) as [Hgt | Hle]; [ | lia ]. cbn [render_unfold_clause_1].
    assert (Hn' : n = Z.to_nat (c - 1)) by lia.
    rewrite (IH (c - 1)%Z Hn').
    assert (Hline :
              snd (scanline E W H world maxDepth camera spp j c st) =
              mkRenderState E (generator st) (cerr st ++ [c])
                (ppm st ++ repeat (combine black spp) (Z.to_nat W))
                (png st ++ repeat (combine black spp) (Z.to_nat W))
                (jpg st ++ repeat (combine black spp) (Z.to_nat W))
                (traced st)).
    { unfold scanline, bind, print_remaining.
      rewrite pixel_loop_no_sample by exact Hs. reflexivity. }
    rewrite Hline. cbn [generator cerr ppm png jpg traced].
    rewrite <- !app_assoc, <- !repeat_app. cbn [app].
    replace (countdown (S n)) with (c :: countdown n)
      by (cbn [countdown]; f_equal; lia).
    reflexivity.
Qed.

End RenderStreams.

(** X16.  [render] only appends to the buffers of the writers, and it
    appends the same pixels, in the same order, to all three of them. *)
Theorem writers_get_the_same_pixels
    (E : Externals) (width height : Z) (world : HittableList (Material E))
    (maxDepth : Z) (camera : Camera E) (samples j scanLinesLeft : Z)
    (st : RenderState E) :
  let st1 :=
    render E width height world maxDepth camera samples j scanLinesLeft st in
  exists l : list color,
    ppm st1 = ppm st ++ l /\ png st1 = png st ++ l /\ jpg st1 = jpg st ++ l.
Proof. apply render_streams. Qed.

(** X17.  For an image width of zero or less [render] still counts the
    scan lines down on the error stream, but it draws no random number,
    asks the camera for no ray and writes no pixel. *)
Theorem render_of_no_column
    (E : Externals) (width height : Z) (world : HittableList (Material E))
    (maxDepth : Z) (camera : Camera E) (samples j scanLinesLeft : Z)
    (st : RenderState E) :
  (width <= 0)%Z ->
  render E width height world maxDepth camera samples j scanLinesLeft st =
  mkRenderState E (generator st)
    (cerr st ++ countdown (Z.to_nat scanLinesLeft))
    (ppm st) (png st) (jpg st) (traced st).
Proof. intros Hw. apply render_no_column. exact Hw. Qed.

Lemma render_of_no_column_witness :
  render toyExternals 0 3 [wall Mirror] 50 tt 100 0 2 toyState =
  mkRenderState toyExternals O [2%Z; 1%Z] [] [] [] [].
Proof.
  apply (render_of_no_column toyExternals 0 3 [wall Mirror] 50 tt 100 0 2
           toyState).
  discriminate.
Defined.

(** X18.  For a sample count of zero or less [render] draws no random
    number and asks the camera for no ray; every pixel it writes is the
    default colour passed through [combine]. *)
Theorem render_without_samples
    (E : Externals) (width height : Z) (world : HittableList (Material E))
    (maxDepth : Z) (camera : Camera E) (samples j scanLinesLeft : Z)
    (st : RenderState E) :
  (samples <= 0)%Z ->
  let pixels :=
    repeat (combine black samples)
           (Z.to_nat scanLinesLeft * Z.to_nat width) in
  render E width height world maxDepth camera samples j scanLinesLeft st =
  mkRenderState E (generator st)
    (cerr st ++ countdown (Z.to_nat scanLinesLeft))
    (ppm st ++ pixels) (png st ++ pixels) (jpg st ++ pixels) (traced st).
Proof. intros Hs. apply render_no_sample. exact Hs. Qed.

Lemma render_without_samples_witness :
  render toyExternals 2 2 [wall Mirror] 50 tt 0 0 1 toyState =
  mkRenderState toyExternals O [1%Z]
    [combine black 0; combine black 0]
    [combine black 0; combine black 0]
    [combine black 0; combine black 0] [].
Proof.
  apply (render_without_samples toyExternals 2 2 [wall Mirror] 50 tt 0 0 1
           toyState).
  discriminate.
Defined.

(** ** The pool: bounds, work and termination *)

Lemma turns_left_repeat (c : Z) (n : nat) :
  turns_left (repeat c n) = (n * Z.to_nat c)%nat.
Proof. induction n as [ | n IH]; cbn; [ reflexivity | lia ]. Qed.

Lemma turns_left_set_counter (k : nat) (c : Z) (l : list Z) :
  nth_error l k = Some c ->
  (c > 0)%Z ->
  S (turns_left (set_counter k (c - 1) l)) = turns_left l.
Proof.
  revert k; induction l as [ | c0 l IH]; intros [ | k]; cbn;
    try discriminate.
  - intros [= ->] Hc. lia.
  - intros Hk Hc. specialize (IH k Hk Hc). lia.
Qed.

Lemma turns_left_zero (l : list Z) :
  turns_left l = O -> Forall (fun c => (c <= 0)%Z) l.
Proof.
  induction l as [ | c l IH]; cbn; intros Hl; constructor.
  - lia.
  - apply IH. lia.
Qed.

Lemma turns_left_positive (l : list Z) (n : nat) :
  turns_left l = S n ->
  exists k c, nth_error l k = Some c /\ (c > 0)%Z.
Proof.
  induction l as [ | c l IH]; cbn; [ discriminate | ].
  intros Hl. destruct (Z_gt_le_dec c 0) as [Hc | Hc].
  - exists O, c. auto.
  - destruct IH as (k & c1 & Hk & Hc1); [ lia | ].
    exists (S k), c1. auto.
Qed.

Lemma Forall_set_counter (P : Z -> Prop) (k : nat) (c : Z) (l : list Z) :
  Forall P l -> P c -> Forall P (set_counter k c l).
Proof.
  intros Hl Hc. revert k. induction Hl as [ | c0 l H0 Hl IH];
    intros [ | k]; cbn; constructor; auto.
Qed.

Lemma pool_run_trans (pool1 pool2 pool3 : Pool) :
  pool_run pool1 pool2 -> pool_run pool2 pool3 -> pool_run pool1 pool3.
Proof.
  intros H12 H23. induction H23 as [ | pool2 pool3 pool4 H23 IH Hstep].
  - exact H12.
  - eapply run_step; [ apply IH; exact H12 | exact Hstep ].
Qed.

Lemma two_threads_run :
  pool_run (spawn 2 1) (mkPool [0%Z; 0%Z] [(0%nat, 1%Z); (1%nat, 1%Z)]).
Proof.
  apply (run_step _ (mkPool [0%Z; 1%Z] [(0%nat, 1%Z)])).
  - apply (run_step _ (mkPool [1%Z; 1%Z] [])).
    + apply run_refl.
    + exact (step_claim 0 1 (mkPool [1%Z; 1%Z] []) eq_refl eq_refl).
  - exact (step_claim 1 1 (mkPool [0%Z; 1%Z] [(0%nat, 1%Z)])
             eq_refl eq_refl).
Defined.

Lemma two_threads_joined :
  joined (mkPool [0%Z; 0%Z] [(0%nat, 1%Z); (1%nat, 1%Z)]).
Proof. repeat constructor; discriminate. Defined.

(** X19.  In every interleaving the counter of each thread stays between
    0 and its initial value: no thread decrements below zero. *)
Theorem counters_stay_in_range
    (numThreads scanLinesLeft : Z) (pool : Pool) :
  (0 <= scanLinesLeft)%Z ->
  pool_run (spawn numThreads scanLinesLeft) pool ->
  Forall (fun c => (0 <= c <= scanLinesLeft)%Z) (counters pool).
Proof.
  intros H0 Hrun.
  remember (spawn numThreads scanLinesLeft) as pool0 eqn:Hp.
  induction Hrun as [pool | pool1 pool2 pool3 Hrun IH Hstep].
  - subst pool. cbn. apply Forall_forall. intros c Hc.
    apply repeat_spec in Hc. lia.
  - specialize (IH Hp). destruct Hstep as [k c pool Hk Hc]. cbn.
    apply Forall_set_counter; [ exact IH | ].
    rewrite Forall_forall in IH.
    specialize (IH c (nth_error_In _ _ Hk)). cbn beta in IH. lia.
Qed.

Lemma counters_stay_in_range_witness :
  Forall (fun c => (0 <= c <= 1)%Z) [0%Z; 0%Z].
Proof.
  apply (counters_stay_in_range 2 1
           (mkPool [0%Z; 0%Z] [(0%nat, 1%Z); (1%nat, 1%Z)])).
  - lia.
  - exact two_threads_run.
Defined.

(** X20.  In every interleaving the decrements made so far and the turns
    the threads still have to make add up to the number of threads times
    the initial counter: no schedule makes more decrements than that. *)
Theorem work_is_threads_times_rows
    (numThreads scanLinesLeft : Z) (pool : Pool) :
  pool_run (spawn numThreads scanLinesLeft) pool ->
  (List.length (claimed pool) + turns_left (counters pool) =
   Z.to_nat numThreads * Z.to_nat scanLinesLeft)%nat.
Proof.
  intros Hrun.
  remember (spawn numThreads scanLinesLeft) as pool0 eqn:Hp.
  induction Hrun as [pool | pool1 pool2 pool3 Hrun IH Hstep].
  - subst pool. cbn. apply turns_left_repeat.
  - specialize (IH Hp). destruct Hstep as [k c pool Hk Hc]. cbn.
    pose proof (turns_left_set_counter k c _ Hk Hc) as Ht.
    rewrite length_app. cbn. lia.
Qed.

Lemma work_is_threads_times_rows_witness :
  (List.length [(0%nat, 1%Z); (1%nat, 1%Z)] + turns_left [0%Z; 0%Z] =
   Z.to_nat 2 * Z.to_nat 1)%nat.
Proof.
  apply (work_is_threads_times_rows 2 1
           (mkPool [0%Z; 0%Z] [(0%nat, 1%Z); (1%nat, 1%Z)])).
  exact two_threads_run.
Defined.

(** X21.  Once every thread has left its loop, the threads have made
    exactly the number of threads times the initial counter decrements in
    all: with a counter per thread the rows are worked through once by
    each thread. *)
Theorem joined_pool_has_done_all_turns
    (numThreads scanLinesLeft : Z) (pool : Pool) :
  pool_run (spawn numThreads scanLinesLeft) pool ->
  joined pool ->
  List.length (claimed pool) =
  (Z.to_nat numThreads * Z.to_nat scanLinesLeft)%nat.
Proof.
  intros Hrun Hjoined.
  remember (spawn numThreads scanLinesLeft) as pool0 eqn:Hp.
  assert (Hleft : turns_left (counters pool) = O).
  { unfold joined in Hjoined. clear Hrun.
    induction Hjoined as [ | c l Hc _ IH]; cbn; [ reflexivity | lia ]. }
  assert (Hsum : (List.length (claimed pool) + turns_left (counters pool) =
                  Z.to_nat numThreads * Z.to_nat scanLinesLeft)%nat).
  { clear Hjoined Hleft.
    induction Hrun as [pool | pool1 pool2 pool3 Hrun IH Hstep].
    - subst pool. cbn. apply turns_left_repeat.
    - specialize (IH Hp). destruct Hstep as [k c pool Hk Hc]. cbn.
      pose proof (turns_left_set_counter k c _ Hk Hc) as Ht.
      rewrite length_app. cbn. lia. }
  lia.
Qed.

Lemma joined_pool_has_done_all_turns_witness :
  List.length [(0%nat, 1%Z); (1%nat, 1%Z)] = (Z.to_nat 2 * Z.to_nat 1)%nat.
Proof.
  apply (joined_pool_has_done_all_turns 2 1
           (mkPool [0%Z; 0%Z] [(0%nat, 1%Z); (1%nat, 1%Z)])).
  - exact two_threads_run.
  - exact two_threads_joined.
Defined.

(** X22.  From every state of the pool the threads can run on until all of
    them have left their loops: the joins of [main] are never blocked. *)
Theorem pool_can_always_finish (pool : Pool) :
  exists pool1 : Pool, pool_run pool pool1 /\ joined pool1.
Proof.
  remember (turns_left (counters pool)) as n eqn:Hn. revert pool Hn.
  induction n as [ | n IH]; intros pool Hn.
  - exists pool. split; [ apply run_refl | ].
    apply turns_left_zero. symmetry. exact Hn.
  - destruct (turns_left_positive (counters pool) n (eq_sym Hn))
      as (k & c & Hk & Hc).
    pose proof (step_claim k c pool Hk Hc) as Hstep.
    pose proof (turns_left_set_counter k c _ Hk Hc) as Ht.
    destruct (IH (mkPool (set_counter k (c - 1) (counters pool))
                         (claimed pool ++ [(k, c)])))
      as (pool1 & Hrun & Hjoined).
    { cbn. lia. }
    exists pool1. split; [ | exact Hjoined ].
    eapply pool_run_trans; [ | exact Hrun ].
    eapply run_step; [ apply run_refl | exact Hstep ].
Qed.

Lemma thread_claims_are_render_turns_witness :
  cerr (render toyExternals 2 2 [wall Mirror] 50 tt 1 0 1 toyState) =
  cerr toyState ++ claims_of 1 [(0%nat, 1%Z); (1%nat, 1%Z)].
Proof.
  apply (thread_claims_are_render_turns toyExternals 2 2 [wall Mirror] 50 tt
           1 0 toyState 2 1
           (mkPool [0%Z; 0%Z] [(0%nat, 1%Z); (1%nat, 1%Z)]) 1).
  - exact two_threads_run.
  - exact two_threads_joined.
  - cbn. lia.
Defined.

(** ** rayColor and the generator *)

(** X23.  [rayColor] draws random numbers through the materials only: when
    no material of the scene advances the generator, [rayColor] hands the
    generator back as it got it. *)
Theorem rayColor_draws_only_through_scatter
    (E : Externals) (world : HittableList (Material E))
    (r : ray) (depth : Z) (gen : Generator E) :
  (forall m r0 record gen0,
     scene_material world m -> snd (scatter E m r0 record gen0) = gen0) ->
  snd (rayColor E r world depth gen) = gen.
Proof.
  intros Hstill.
  remember (Z.to_nat depth) as n eqn:Hn. revert depth Hn r gen.
  induction n as [ | n IH]; intros depth Hn r gen.
  - rewrite rayColor_spent by lia. reflexivity.
  - destruct (hit world r 0.001 (infinity E)) as [record | ] eqn:Hhit.
    + rewrite (rayColor_hit E r world depth gen record) by (lia || exact Hhit).
      pose proof (Hstill (material record) r record gen
                    (hit_scene_material _ _ _ _ _ Hhit)) as Hgen.
      destruct (scatter E (material record) r record gen)
        as [[[att sc] | ] gen1]; cbn [snd] in Hgen; subst gen1.
      * unfold attenuate. cbn [snd]. apply IH. lia.
      * reflexivity.
    + rewrite rayColor_miss by (lia || exact Hhit). reflexivity.
Qed.

Lemma rayColor_draws_only_through_scatter_witness :
  snd (rayColor stillExternals forward [wall Mirror] 50 O) = O.
Proof.
  apply (rayColor_draws_only_through_scatter stillExternals [wall Mirror]
           forward 50 O).
  intros m r0 record gen0 _. destruct m; reflexivity.
Defined.
